(** * ign-transport: discovery packet codecs and the topic recorder

    A shallow embedding of [src/Packet.cc] (the [Header],
    [SubscriptionMsg] and [AdvertiseMessage] codecs) and of
    [log/src/Recorder.cc] (the recorder's log life cycle, its topic
    subscriptions and its advertisement handler), with the properties
    the specification states about them.

    Conventions of the embedding.
    - C++ integers are [Z] with the conversions between widths written
      out: [uint16_t], [uint8_t] and [uint64_t]/[size_t] are reduced
      modulo [2^16], [2^8] and [2^64]; [int] is 32-bit two's complement
      (LP64).
    - A [char *] is an address into a flat byte-addressed memory; the
      null pointer is address [0].  The codecs receive a pointer and no
      capacity, exactly as in the source.
    - Multi-byte fields are copied with [memcpy] from the host
      representation; the host is little-endian.
    - [std::string] is [string]; its bytes are [list_byte_of_string].
    - [std::cerr] and the collaborators' calls are recorded as lists of
      events, so that "emits a diagnostic" and "does not call" can be
      stated. *)

From Stdlib Require Import ZArith Lia List String Ascii Bool.
From coqutil Require Import Byte Word.LittleEndianList.
From stdpp Require Import base decidable countable gmap sets strings.
Import ListNotations.

#[local] Open Scope string_scope.
#[local] Open Scope Z_scope.

(** ** Machine integers and memory *)

Module Machine.

Definition to_uint8 (z : Z) : Z := z mod 2 ^ 8.
Definition to_uint16 (z : Z) : Z := z mod 2 ^ 16.
Definition to_uint64 (z : Z) : Z := z mod 2 ^ 64.

(** [size_t] is 64 bits wide. *)
Definition to_size_t (z : Z) : Z := to_uint64 z.

(** Conversion to [int]: reduction modulo [2^32] into
    [[-2^31, 2^31)]. *)
Definition to_int (z : Z) : Z := (z + 2 ^ 31) mod 2 ^ 32 - 2 ^ 31.

Definition INT_MAX : Z := 2 ^ 31 - 1.

Definition addr := Z.
Definition NULL : addr := 0.

(** Memory is a total map from addresses to bytes. *)
Definition memory := addr -> byte.

(** [memcpy(dst, src, |bs|)] where [bs] are the source bytes. *)
Definition memcpy (m : memory) (dst : addr) (bs : list byte) : memory :=
  fun a =>
    if (dst <=? a) && (a <? dst + Z.of_nat (List.length bs))
    then nth (Z.to_nat (a - dst)) bs (m a)
    else m a.

(** The [n] bytes found at [src], as read by [memcpy(&x, src, n)] or by
    the range constructor [std::string(src, src + n)]. *)
Definition load (m : memory) (src : addr) (n : nat) : list byte :=
  List.map (fun i => m (src + Z.of_nat i)) (seq 0 n).

(** [std::string::size()]. *)
Definition size (s : string) : Z := Z.of_nat (String.length s).

End Machine.

(** ** [Header] (Packet.cc, lines 27-168) *)

Module Header.
Import Machine.

(** Modelled from the spec: the message-type constants of Packet.hh,
    which is not among the sources.  The spec fixes [Uninitialized = 0]
    as the reserved "unset" value and [Advertise = 1]. *)
Definition Uninitialized : Z := 0.
Definition AdvType : Z := 1.

(** The four data members: [uint16_t version], [std::string pUuid],
    [uint8_t type], [uint16_t flags]. *)
Record t : Type := mk {
  version : Z;
  pUuid : string;
  type : Z;
  flags : Z
}.

(** The values a C++ [Header] object can hold. *)
Definition wf (h : t) : Prop :=
  0 <= version h < 2 ^ 16 /\
  size (pUuid h) < 2 ^ 64 /\
  0 <= type h < 2 ^ 8 /\
  0 <= flags h < 2 ^ 16.

(** The spec's "valid for packing". *)
Definition valid (h : t) : Prop :=
  version h <> 0 /\ pUuid h <> EmptyString /\ type h <> Uninitialized.

(** The spec's wire layout: version, uuid length, uuid bytes, type,
    flags. *)
Definition wire (h : t) : list byte :=
  le_split 2 (version h) ++ le_split 8 (size (pUuid h))
  ++ list_byte_of_string (pUuid h) ++ le_split 1 (type h) ++ le_split 2 (flags h).

(** What is sent to [std::cerr]: string literals, [std::endl], and a
    header printed with [operator<<]. *)
Inductive cerr_item : Type :=
| Text (s : string)
| Endl
| Dump (h : t).

(** The state the codecs act on: the memory behind the buffer pointer
    and the text written to [std::cerr] so far, oldest first. *)
Record World : Type := mkWorld {
  mem : memory;
  cerr : list cerr_item
}.

Definition emit (w : World) (items : list cerr_item) : World :=
  mkWorld (mem w) (cerr w ++ items).

Definition set_mem (w : World) (m : memory) : World :=
  mkWorld m (cerr w).

(** [int Header::HeaderLength() const]: the sum is computed in [size_t]
    and converted to the [int] return type. *)
Definition HeaderLength (h : t) : Z :=
  to_int (to_size_t (2 + 8 + size (pUuid h) + 1 + 2)).

(** [size_t Header::Pack(char *_buffer) const]. *)
Definition Pack (h : t) (_buffer : addr) (w : World) : Z * World :=
  if (version h =? 0) || String.eqb (pUuid h) "" || (type h =? Uninitialized)
  then
    (0, emit w [Text "Header::Pack() error: You're trying to pack an incomplete ";
                Text "header:"; Endl; Dump h])
  else if _buffer =? NULL then
    (0, emit w [Text "Header::Pack() error: NULL output buffer"; Endl])
  else
    let m := memcpy (mem w) _buffer (le_split 2 (version h)) in
    let _buffer := _buffer + 2 in
    let pUuidLength := to_uint64 (size (pUuid h)) in
    let m := memcpy m _buffer (le_split 8 pUuidLength) in
    let _buffer := _buffer + 8 in
    let m := memcpy m _buffer
               (firstn (Z.to_nat pUuidLength) (list_byte_of_string (pUuid h))) in
    let _buffer := _buffer + pUuidLength in
    let m := memcpy m _buffer (le_split 1 (type h)) in
    let _buffer := _buffer + 1 in
    let m := memcpy m _buffer (le_split 2 (flags h)) in
    (to_size_t (HeaderLength h), set_mem w m).

(** [size_t Header::Unpack(const char *_buffer)]: the result is the
    returned length, the updated object and the world. *)
Definition Unpack (this : t) (_buffer : addr) (w : World) : Z * t * World :=
  if _buffer =? NULL then
    (0, this, emit w [Text "Header::Unpack() error: NULL input buffer"; Endl])
  else
    let m := mem w in
    let version' := le_combine (load m _buffer 2) in
    let _buffer := _buffer + 2 in
    let pUuidLength := le_combine (load m _buffer 8) in
    let _buffer := _buffer + 8 in
    let pUuid' := string_of_list_byte (load m _buffer (Z.to_nat pUuidLength)) in
    let _buffer := _buffer + pUuidLength in
    let type' := le_combine (load m _buffer 1) in
    let _buffer := _buffer + 1 in
    let flags' := le_combine (load m _buffer 2) in
    let this := mk version' pUuid' type' flags' in
    (to_size_t (HeaderLength this), this, w).

End Header.

(** ** [SubscriptionMsg] (Packet.cc, lines 171-256) *)

Module SubscriptionMsg.
Import Machine.

Record t : Type := mk {
  header : Header.t;
  topic : string
}.

(** [size_t SubscriptionMsg::MsgLength() const]: the [int] header
    length is converted to [size_t] for the sum. *)
Definition MsgLength (s : t) : Z :=
  to_size_t (to_size_t (Header.HeaderLength (header s)) + 8 + size (topic s)).

(** [size_t SubscriptionMsg::Pack(char *_buffer) const]. *)
Definition Pack (s : t) (_buffer : addr) (w : Header.World) : Z * Header.World :=
  let '(headerLen, w) := Header.Pack (header s) _buffer w in
  if headerLen =? 0 then (0, w)
  else if String.eqb (topic s) "" then
    (0, Header.emit w
          [Header.Text "SubscriptionMsg::Pack() error: You're trying to pack a ";
           Header.Text "message with an empty topic"; Header.Endl])
  else
    let _buffer := _buffer + headerLen in
    let topicLength := to_uint64 (size (topic s)) in
    let m := memcpy (Header.mem w) _buffer (le_split 8 topicLength) in
    let _buffer := _buffer + 8 in
    let m := memcpy m _buffer
               (firstn (Z.to_nat topicLength) (list_byte_of_string (topic s))) in
    (MsgLength s, Header.set_mem w m).

(** [size_t SubscriptionMsg::Unpack(char *_buffer)]: decodes the body
    only; the header is left as it is. *)
Definition Unpack (this : t) (_buffer : addr) (w : Header.World)
  : Z * t * Header.World :=
  if _buffer =? NULL then
    (0, this,
     Header.emit w
       [Header.Text "SubscriptionMsg::UnpackBody() error: NULL input buffer";
        Header.Endl])
  else
    let m := Header.mem w in
    let topicLength := le_combine (load m _buffer 8) in
    let _buffer := _buffer + 8 in
    let topic' := string_of_list_byte (load m _buffer (Z.to_nat topicLength)) in
    (to_size_t (8 + topicLength), mk (header this) topic', w).

End SubscriptionMsg.

(** ** [AdvertiseMessage] (Packet.cc, lines 259-321) *)

(** Modelled from the spec: the [Publisher] codec.  Publisher.hh and
    Publisher.cc are not among the sources; the spec describes
    [Publisher] as an opaque record that "exposes its own
    [Pack]/[Unpack]/[MsgLength]", each acting on a [char *] buffer and
    returning a length, [0] meaning failure. *)
Class PublisherCodec (Publisher : Type) : Type := {
  Publisher_MsgLength : Publisher -> Z;
  Publisher_Pack : Publisher -> Machine.addr -> Header.World -> Z * Header.World;
  Publisher_Unpack :
    Publisher -> Machine.addr -> Header.World -> Z * Publisher * Header.World
}.

Module AdvertiseMessage.
Import Machine.

Section WithPublisher.
Context {Publisher : Type} {codec : PublisherCodec Publisher}.

Record t : Type := mk {
  header : Header.t;
  publisher : Publisher
}.

(** [size_t AdvertiseMessage::MsgLength() const]. *)
Definition MsgLength (a : t) : Z :=
  to_size_t (to_size_t (Header.HeaderLength (header a))
             + Publisher_MsgLength (publisher a)).

(** [size_t AdvertiseMessage::Pack(char *_buffer) const]. *)
Definition Pack (a : t) (_buffer : addr) (w : Header.World) : Z * Header.World :=
  let '(len, w) := Header.Pack (header a) _buffer w in
  if len =? 0 then (0, w)
  else
    let _buffer := _buffer + len in
    let '(plen, w) := Publisher_Pack (publisher a) _buffer w in
    if plen =? 0 then (0, w)
    else (MsgLength a, w).

(** [size_t AdvertiseMessage::Unpack(char *_buffer)]: the buffer goes
    to the publisher's [Unpack] unexamined. *)
Definition Unpack (this : t) (_buffer : addr) (w : Header.World)
  : Z * t * Header.World :=
  let '(plen, p, w) := Publisher_Unpack (publisher this) _buffer w in
  let this := mk (header this) p in
  if plen =? 0 then (0, this, w)
  else (to_size_t (Publisher_MsgLength (publisher this)), this, w).

End WithPublisher.

Arguments t : clear implicits.

End AdvertiseMessage.

(** ** The recorder (log/src/Recorder.cc) *)

Module Recorder.

(** [enum class RecorderError]. *)
Inductive RecorderError : Type :=
| NO_ERROR
| FAILED_TO_OPEN
| FAILED_TO_SUBSCRIBE
| ALREADY_RECORDING.

(** Modelled from the spec: the collaborators of the recorder, none of
    which is among the sources.  [std::regex] with [std::regex_match];
    [Publisher] with its fully-qualified [Topic()];
    [TopicUtils::DecomposeFullyQualifiedTopic], which yields the
    partition and the topic when the name is well formed; [Node] with
    [Options().Partition()], [TopicList] and [SubscribeRaw], whose
    outcome may depend on the node's state; [Log] with [Open], acting
    on the storage behind it; and the numeric values Recorder.hh gives
    to the [RecorderError] enumerators. *)
Class Collaborators : Type := {
  regex : Type;
  regex_match : string -> regex -> bool;
  Publisher : Type;
  Publisher_Topic : Publisher -> string;
  DecomposeFullyQualifiedTopic : string -> option (string * string);
  Node : Type;
  Node_Partition : Node -> string;
  Node_TopicList : Node -> list string;
  Node_SubscribeRaw : string -> Node -> bool * Node;
  Storage : Type;
  Log : Type;
  Log_new : Log;
  Log_Open : Log -> string -> Storage -> bool * Log * Storage;
  RecorderError_value : RecorderError -> Z
}.

(** Calls made on the collaborators, with their outcome. *)
Inductive Call : Type :=
| SubscribeRaw (topic : string) (ok : bool)
| LogOpen (file : string) (ok : bool).

(** Console.hh severities ([LDBG], [LMSG], [LWRN], [LERR]). *)
Inductive Severity : Type := DBG | MSG | WRN | ERR.

Definition nl : string := String (ascii_of_nat 10) EmptyString.

(** *** C strings *)

(** [s[0]] on a [const std::string &]: the first character, or the NUL
    terminator when [s] is empty. *)
Definition front_or_nul (s : string) : ascii :=
  match s with
  | EmptyString => zero
  | String c _ => c
  end.

Definition code (c : ascii) : Z := Z.of_N (N_of_ascii c).

Fixpoint drop_chars (k : nat) (s : string) : string :=
  match k, s with
  | O, _ => s
  | S k', String _ s' => drop_chars k' s'
  | S _, EmptyString => EmptyString
  end.

(** [s.c_str() + k]: the characters of [s] from index [k] on, which
    the terminating NUL follows.  The pointer is defined up to the
    terminator at index [s.size()] and undefined ([None]) beyond it. *)
Definition c_str_from (s : string) (k : nat) : option string :=
  if (k <=? String.length s)%nat then Some (drop_chars k s) else None.

(** [strcmp] on two character arrays, each followed by its terminating
    NUL: the characters are compared as unsigned chars up to the first
    difference or the first NUL.  The result is zero, or the difference
    of the two characters that differ (the standard fixes its sign
    only). *)
Fixpoint strcmp (a b : string) : Z :=
  match a, b with
  | EmptyString, _ => 0 - code (front_or_nul b)
  | String x _, EmptyString => code x
  | String x a', String y b' =>
      if Ascii.eqb x y then
        if Ascii.eqb x zero then 0 else strcmp a' b'
      else code x - code y
  end.

(** The C string held by a character array: what precedes the first
    NUL. *)
Fixpoint until_nul (s : string) : string :=
  match s with
  | EmptyString => EmptyString
  | String c s' => if Ascii.eqb c zero then EmptyString else String c (until_nul s')
  end.

(** No NUL among the characters of a string. *)
Fixpoint nul_free (s : string) : bool :=
  match s with
  | EmptyString => true
  | String c s' => negb (Ascii.eqb c zero) && nul_free s'
  end.

Section WithCollaborators.
Context {ext : Collaborators}.

(** [RecorderPrivate] together with what lies behind its collaborators:
    the storage the log opens files on, the calls made so far (oldest
    first) and the console output.  The two mutexes serialise the
    operations; each operation below is one critical section.  The
    clock offset, the raw callback and the discovery object play no
    part in the operations modelled here. *)
Record State : Type := mkState {
  logFile : option Log;
  patterns : list regex;
  alreadySubscribed : gset string;
  node : Node;
  storage : Storage;
  calls : list Call;
  console : list (Severity * string)
}.

Definition say (sev : Severity) (msg : string) (s : State) : State :=
  mkState (logFile s) (patterns s) (alreadySubscribed s) (node s) (storage s)
          (calls s) (console s ++ [(sev, msg)]).

Definition set_logFile (l : option Log) (s : State) : State :=
  mkState l (patterns s) (alreadySubscribed s) (node s) (storage s)
          (calls s) (console s).

(** A freshly constructed recorder: no log, no pattern, no
    subscription. *)
Definition init (n : Node) (st : Storage) : State :=
  mkState None [] ∅ n st [] [].

(** [RecorderError RecorderPrivate::AddTopic(const std::string &)]. *)
Definition AddTopic (_topic : string) (s : State) : RecorderError * State :=
  let s := say DBG ("Recording [" ++ _topic ++ "]" ++ nl) s in
  let '(ok, n) := Node_SubscribeRaw _topic (node s) in
  let s := mkState (logFile s) (patterns s) (alreadySubscribed s) n (storage s)
                   (calls s ++ [SubscribeRaw _topic ok]) (console s) in
  if negb ok then
    (FAILED_TO_SUBSCRIBE, say ERR ("Failed to subscribe to [" ++ _topic ++ "]" ++ nl) s)
  else
    (NO_ERROR,
     mkState (logFile s) (patterns s) ({[ _topic ]} ∪ alreadySubscribed s) (node s)
             (storage s) (calls s) (console s)).

(** How the loop of [AddTopic(const std::regex &)] ends. *)
Inductive LoopExit : Type :=
| Returned (value : Z)
| Completed (numSubscriptions : Z).

(** The loop over [allTopics].  [numSubscriptions] is an [int] that
    goes up by one per subscription; it is counted in [Z], which is
    what the code computes as long as the counter does not overflow
    (signed overflow has no defined behaviour). *)
Fixpoint AddTopic_loop (_pattern : regex) (allTopics : list string)
    (numSubscriptions : Z) (s : State) : LoopExit * State :=
  match allTopics with
  | [] => (Completed numSubscriptions, s)
  | topic :: rest =>
      if regex_match topic _pattern then
        let '(err, s) := AddTopic topic s in
        match err with
        | FAILED_TO_SUBSCRIBE =>
            (Returned (RecorderError_value FAILED_TO_SUBSCRIBE), s)
        | _ => AddTopic_loop _pattern rest (numSubscriptions + 1) s
        end
      else
        AddTopic_loop _pattern rest numSubscriptions
          (say DBG ("Not recording " ++ topic ++ nl) s)
  end.

(** [int64_t RecorderPrivate::AddTopic(const std::regex &)]. *)
Definition AddTopic_regex (_pattern : regex) (s : State) : Z * State :=
  let allTopics := Node_TopicList (node s) in
  match AddTopic_loop _pattern allTopics 0 s with
  | (Returned v, s) => (v, s)
  | (Completed numSubscriptions, s) =>
      (numSubscriptions,
       mkState (logFile s) (patterns s ++ [_pattern]) (alreadySubscribed s) (node s)
               (storage s) (calls s) (console s))
  end.

(** The offset of the comparison and the comparison itself, as in
    [OnAdvertisement]: [Some true] when [strcmp] returns zero, [None]
    when the offset points past the advertised partition's
    terminator. *)
Definition startCmp (nodePartition : string) : nat :=
  if Ascii.eqb (front_or_nul nodePartition) "/" then 0%nat else 1%nat.

Definition partition_matches (nodePartition partition : string) : option bool :=
  match c_str_from partition (startCmp nodePartition) with
  | None => None
  | Some adv => Some (strcmp nodePartition adv =? 0)
  end.

(** The loop over [patterns] at the end of [OnAdvertisement]; the
    result of [AddTopic] is not looked at. *)
Fixpoint OnAdvertisement_loop (topic : string) (ps : list regex) (s : State) : State :=
  match ps with
  | [] => s
  | pattern :: rest =>
      if regex_match topic pattern
      then OnAdvertisement_loop topic rest (snd (AddTopic topic s))
      else OnAdvertisement_loop topic rest s
  end.

(** [void RecorderPrivate::OnAdvertisement(const Publisher &)].  The
    two output strings stay empty when the decomposition fails.  [None]
    stands for the undefined read past the partition's terminator. *)
Definition OnAdvertisement (_publisher : Publisher) (s : State) : option State :=
  let '(partition, topic) :=
    match DecomposeFullyQualifiedTopic (Publisher_Topic _publisher) with
    | Some pt => pt
    | None => (EmptyString, EmptyString)
    end in
  let nodePartition := Node_Partition (node s) in
  match partition_matches nodePartition partition with
  | None => None
  | Some false => Some s
  | Some true =>
      if decide (topic ∈ alreadySubscribed s) then Some s
      else Some (OnAdvertisement_loop topic (patterns s) s)
  end.

(** [RecorderError Recorder::Start(const std::string &)]. *)
Definition Start (_file : string) (s : State) : RecorderError * State :=
  match logFile s with
  | Some _ =>
      (ALREADY_RECORDING, say WRN ("Recording is already in progress" ++ nl) s)
  | None =>
      let '(ok, l, st) := Log_Open Log_new _file (storage s) in
      let s := mkState (Some l) (patterns s) (alreadySubscribed s) (node s) st
                       (calls s ++ [LogOpen _file ok]) (console s) in
      if negb ok then
        (FAILED_TO_OPEN,
         set_logFile None
           (say ERR ("Failed to open or create file [" ++ _file ++ "]" ++ nl) s))
      else
        (NO_ERROR, say MSG ("Started recording to [" ++ _file ++ "]" ++ nl) s)
  end.

(** [void Recorder::Stop()]. *)
Definition Stop (s : State) : State := set_logFile None s.

(** The successful [SubscribeRaw] calls for [t] among [cs]. *)
Definition subscribed_count (t : string) (cs : list Call) : nat :=
  List.length
    (List.filter
       (fun c => match c with
                 | SubscribeRaw t' ok => String.eqb t t' && ok
                 | LogOpen _ _ => false
                 end) cs).

(** The topics of a list that fully match a pattern, in order. *)
Definition matching (p : regex) (ts : list string) : list string :=
  List.filter (fun t => regex_match t p) ts.

(** Successful [SubscribeRaw] calls, one per topic of a list. *)
Definition accepted (ts : list string) : list Call :=
  List.map (fun t => SubscribeRaw t true) ts.

End WithCollaborators.

End Recorder.

(** ** Sample collaborators

    Small executable stand-ins for the collaborators, used to run the
    recorder and the advertise codec on concrete inputs. *)

Module Sample.
Import Machine.

(** A publisher reduced to its fully-qualified topic name, packed as a
    [uint64_t] length followed by the bytes of the name. *)
Definition publisher : Type := string.

Definition publisher_MsgLength (p : publisher) : Z := to_size_t (8 + size p).

Definition publisher_Pack (p : publisher) (_buffer : addr) (w : Header.World)
  : Z * Header.World :=
  if _buffer =? NULL then
    (0, Header.emit w [Header.Text "Publisher::Pack() error: NULL output buffer";
                       Header.Endl])
  else
    let m := memcpy (Header.mem w) _buffer (le_split 8 (to_uint64 (size p))) in
    let m := memcpy m (_buffer + 8) (list_byte_of_string p) in
    (publisher_MsgLength p, Header.set_mem w m).

Definition publisher_Unpack (p : publisher) (_buffer : addr) (w : Header.World)
  : Z * publisher * Header.World :=
  if _buffer =? NULL then
    (0, p, Header.emit w [Header.Text "Publisher::Unpack() error: NULL input buffer";
                          Header.Endl])
  else
    let m := Header.mem w in
    let len := le_combine (load m _buffer 8) in
    let p' := string_of_list_byte (load m (_buffer + 8) (Z.to_nat len)) in
    (publisher_MsgLength p', p', w).

#[export] Instance publisher_codec : PublisherCodec publisher := {
  Publisher_MsgLength := publisher_MsgLength;
  Publisher_Pack := publisher_Pack;
  Publisher_Unpack := publisher_Unpack
}.

(** Three shapes of topic pattern: [.*], a literal name, and a literal
    prefix followed by [.*]. *)
Inductive pattern : Type :=
| AnyTopic
| Exactly (name : string)
| StartsWith (pre : string).

Definition pattern_match (topic : string) (p : pattern) : bool :=
  match p with
  | AnyTopic => true
  | Exactly name => String.eqb topic name
  | StartsWith pre => String.prefix pre topic
  end.

(** Splitting at the first ['@']. *)
Fixpoint split_at (s : string) : option (string * string) :=
  match s with
  | EmptyString => None
  | String c s' =>
      if Ascii.eqb c "@" then Some (EmptyString, s')
      else match split_at s' with
           | Some (a, b) => Some (String c a, b)
           | None => None
           end
  end.

(** Names of the form [@/<partition>@<topic>]. *)
Definition decompose (fq : string) : option (string * string) :=
  match fq with
  | String c1 (String c2 rest) =>
      if Ascii.eqb c1 "@" && Ascii.eqb c2 "/" then
        match split_at rest with
        | Some (p, t) => Some (String c2 p, t)
        | None => None
        end
      else None
  | _ => None
  end.

(** A node that refuses the topics listed in [refused] and accepts
    every other subscription, any number of times. *)
Record node : Type := mkNode {
  partition : string;
  topics : list string;
  refused : list string;
  subscriptions : list string
}.

Definition node_SubscribeRaw (topic : string) (n : node) : bool * node :=
  if existsb (String.eqb topic) (refused n) then (false, n)
  else (true, mkNode (partition n) (topics n) (refused n) (subscriptions n ++ [topic])).

(** Storage on which the files listed in [locked] cannot be opened. *)
Record disk : Type := mkDisk {
  locked : list string;
  created : list string
}.

Definition log_Open (l : option string) (file : string) (d : disk)
  : bool * option string * disk :=
  if existsb (String.eqb file) (locked d) then (false, l, d)
  else (true, Some file, mkDisk (locked d) (created d ++ [file])).

Definition error_value (e : Recorder.RecorderError) : Z :=
  match e with
  | Recorder.NO_ERROR => 0
  | Recorder.FAILED_TO_OPEN => -1
  | Recorder.FAILED_TO_SUBSCRIBE => -2
  | Recorder.ALREADY_RECORDING => -3
  end.

#[export] Instance collaborators : Recorder.Collaborators := {
  Recorder.regex := pattern;
  Recorder.regex_match := pattern_match;
  Recorder.Publisher := publisher;
  Recorder.Publisher_Topic := fun p => p;
  Recorder.DecomposeFullyQualifiedTopic := decompose;
  Recorder.Node := node;
  Recorder.Node_Partition := partition;
  Recorder.Node_TopicList := topics;
  Recorder.Node_SubscribeRaw := node_SubscribeRaw;
  Recorder.Storage := disk;
  Recorder.Log := option string;
  Recorder.Log_new := None;
  Recorder.Log_Open := log_Open;
  Recorder.RecorderError_value := error_value
}.

(** The header of the wire-layout scenario. *)
Definition abc_header : Header.t := Header.mk 1 "abc" Header.AdvType 0.

(** A world whose memory holds [b] everywhere. *)
Definition filled (b : byte) : Header.World := Header.mkWorld (fun _ => b) [].

(** [n] copies of a character. *)
Fixpoint replicate (n : nat) (c : ascii) : string :=
  match n with
  | O => EmptyString
  | S n' => String c (replicate n' c)
  end.

(** A valid header whose process UUID is [2^31 - 13] bytes long. *)
Definition long_header : Header.t :=
  Header.mk 1 (replicate (Z.to_nat (2 ^ 31 - 13)) "u") Header.AdvType 0.


(** A node in partition "robot" that accepts every subscription and
    knows of no topic yet, and a disk on which "locked.log" cannot be
    opened. *)
Definition robot_node : node := mkNode "robot" [] [] [].
Definition disk0 : disk := mkDisk ["locked.log"] [].

(** A freshly constructed recorder. *)
Definition fresh : Recorder.State := Recorder.init robot_node disk0.

(** The recorder after [Start("a.log")]. *)
Definition recording : Recorder.State := snd (Recorder.Start "a.log" fresh).

(** The recorder after [AddTopic(std::regex(".*"))] and
    [AddTopic(std::regex("cmd"))]. *)
Definition two_patterns : Recorder.State :=
  snd (Recorder.AddTopic_regex (Exactly "cmd")
         (snd (Recorder.AddTopic_regex AnyTopic fresh))).

End Sample.

(** ** Wire images of whole messages *)

Module Layout.
Import Machine.

(** The bytes of a subscription message: the header's wire image, the
    8-byte topic length, the topic. *)
Definition subscription_wire (s : SubscriptionMsg.t) : list byte :=
  Header.wire (SubscriptionMsg.header s)
  ++ le_split 8 (size (SubscriptionMsg.topic s))
  ++ list_byte_of_string (SubscriptionMsg.topic s).

End Layout.

(** ** The recorder at run time (Recorder.cc, lines 95-156 and 237-297)

    The constructor's clock offset, the message callback and the
    recorder's entry points taken one after the other. *)

Module Runtime.
Import Machine Recorder.

(** Modelled from the spec: [Log::InsertMessage], which is not among
    the sources.  It receives the time stamp in nanoseconds, the topic,
    the type name and the message (pointer and length, which the
    recorder passes on without reading), acts on the log and on the
    storage behind it, and returns whether the insertion succeeded. *)
Class LogStore {ext : Collaborators} : Type := {
  Log_InsertMessage :
    Log -> Z -> string -> string -> addr -> Z -> Storage -> bool * Log * Storage
}.

Section WithLog.
Context {ext : Collaborators} {store : LogStore}.

(** One call of [InsertMessage], with its outcome. *)
Record Insertion : Type := mkInsertion {
  utcNS : Z;
  topic : string;
  type : string;
  data : addr;
  len : Z;
  inserted : bool
}.

(** [RecorderPrivate] with its clock offset, and the [InsertMessage]
    calls made so far (oldest first). *)
Record Private : Type := mkPrivate {
  state : State;
  wallMinusMono : Z;
  insertions : list Insertion
}.

Definition with_state (p : Private) (s : State) : Private :=
  mkPrivate s (wallMinusMono p) (insertions p).

(** [std::chrono::nanoseconds] counts in a signed 64-bit integer;
    results are reduced modulo [2^64] into [[-2^63, 2^63)]. *)
Definition to_int64 (z : Z) : Z := (z + 2 ^ 63) mod 2 ^ 64 - 2 ^ 63.

(** The values a 64-bit count can hold. *)
Definition int64_range (z : Z) : Prop := - 2 ^ 63 <= z < 2 ^ 63.

(** [RecorderPrivate::RecorderPrivate()]: [wallStart] is [time(NULL)],
    in seconds, converted to nanoseconds, and [monoStartNS] the steady
    clock's reading, in nanoseconds; the conversion and the difference
    are 64-bit operations.  The discovery object the constructor
    starts delivers the advertisements [OnAdvertisement] handles. *)
Definition construct (wallStart monoStartNS : Z) (n : Node) (st : Storage) : Private :=
  let wallStartNS := to_int64 (wallStart * 1000000000) in
  mkPrivate (init n st) (to_int64 (wallStartNS - monoStartNS)) [].

(** [void RecorderPrivate::OnMessageReceived(_data, _len, _info)];
    [infoTopic] and [infoType] are [_info.Topic()] and [_info.Type()],
    [nowNS] the steady clock's reading on entry. *)
Definition OnMessageReceived (_data : addr) (_len : Z) (infoTopic infoType : string)
    (nowNS : Z) (p : Private) : Private :=
  let utc := to_int64 (wallMinusMono p + nowNS) in
  let s := say DBG ("RX'" ++ infoTopic ++ "'[" ++ infoType ++ "]" ++ nl) (state p) in
  match logFile s with
  | None => with_state p s
  | Some l =>
      let '(ok, l', st) :=
        Log_InsertMessage l utc infoTopic infoType _data _len (storage s) in
      let s := mkState (Some l') (patterns s) (alreadySubscribed s) (node s) st
                       (calls s) (console s) in
      let s := if negb ok
               then say WRN ("Failed to insert message into log file" ++ nl) s
               else s in
      mkPrivate s (wallMinusMono p)
                (insertions p ++ [mkInsertion utc infoTopic infoType _data _len ok])
  end.

(** The entry points of a recorder: the four public operations and the
    two callbacks. *)
Inductive Op : Type :=
| DoStart (_file : string)
| DoStop
| DoAddTopic (_topic : string)
| DoAddPattern (_pattern : regex)
| DoAdvertise (_publisher : Publisher)
| DoMessage (_data : addr) (_len : Z) (infoTopic infoType : string) (nowNS : Z).

(** One entry point; [None] when [OnAdvertisement] is undefined. *)
Definition step (o : Op) (p : Private) : option Private :=
  match o with
  | DoStart f => Some (with_state p (snd (Start f (state p))))
  | DoStop => Some (with_state p (Stop (state p)))
  | DoAddTopic t => Some (with_state p (snd (AddTopic t (state p))))
  | DoAddPattern r => Some (with_state p (snd (AddTopic_regex r (state p))))
  | DoAdvertise pub =>
      match OnAdvertisement pub (state p) with
      | Some s => Some (with_state p s)
      | None => None
      end
  | DoMessage d n t ty now => Some (OnMessageReceived d n t ty now p)
  end.

Fixpoint run (ops : list Op) (p : Private) : option Private :=
  match ops with
  | [] => Some p
  | o :: rest =>
      match step o p with
      | Some p' => run rest p'
      | None => None
      end
  end.

Definition is_start (o : Op) : bool :=
  match o with
  | DoStart _ => true
  | _ => false
  end.

(** The subscribed set holds exactly the topics of the successful
    [SubscribeRaw] calls. *)
Definition subscribed_exactly (s : State) : Prop :=
  forall t : string, t ∈ alreadySubscribed s <-> In (SubscribeRaw t true) (calls s).

(** [s'] has every subscription of [s], and the patterns of [s] at the
    head of its pattern list. *)
Definition keeps (s s' : State) : Prop :=
  alreadySubscribed s ⊆ alreadySubscribed s' /\
  exists added : list regex, patterns s' = (patterns s ++ added)%list.

(** The patterns among [ps] that fully match a topic. *)
Definition matching_patterns (t : string) (ps : list regex) : list regex :=
  List.filter (fun p => regex_match t p) ps.

(** [k] calls of [SubscribeRaw] for one topic, one after the other:
    the node's answers and the node they leave. *)
Fixpoint repeated_SubscribeRaw (t : string) (k : nat) (n : Node) : list bool * Node :=
  match k with
  | O => ([], n)
  | S k' =>
      let '(ok, n1) := Node_SubscribeRaw t n in
      let '(oks, n2) := repeated_SubscribeRaw t k' n1 in
      (ok :: oks, n2)
  end.

(** What [DecomposeFullyQualifiedTopic] leaves in the handler's two
    output strings. *)
Definition decomposed (_publisher : Publisher) : string * string :=
  match DecomposeFullyQualifiedTopic (Publisher_Topic _publisher) with
  | Some pt => pt
  | None => (EmptyString, EmptyString)
  end.

End WithLog.

End Runtime.

(** ** A sample log store and sample runs *)

Module SampleRuntime.
Import Machine Recorder Runtime.

(** A log that accepts every message with a type name, once opened. *)
Definition log_InsertMessage (l : option string) (utc : Z) (t ty : string)
    (d : addr) (n : Z) (dk : Sample.disk) : bool * option string * Sample.disk :=
  match l with
  | Some _ => (negb (String.eqb ty ""), l, dk)
  | None => (false, l, dk)
  end.

#[export] Instance log_store : LogStore (ext := Sample.collaborators) := {
  Log_InsertMessage := log_InsertMessage
}.

(** A recorder constructed at wall-clock second 1500000000, the steady
    clock reading 7 s. *)
Definition fresh : Private (ext := Sample.collaborators) :=
  construct (ext := Sample.collaborators) 1500000000 7000000000
    Sample.robot_node Sample.disk0.

(** A pattern, an advertisement that matches it, a recording started,
    one message, the recording stopped, one more message. *)
Definition session : list (Op (ext := Sample.collaborators)) :=
  [DoAddPattern (ext := Sample.collaborators) (Sample.StartsWith "sensor/");
   DoAdvertise (ext := Sample.collaborators) "@/robot@sensor/imu";
   DoStart "a.log";
   DoMessage 4096 8 "sensor/imu" "Imu" 9000000000;
   DoStop;
   DoMessage 4096 8 "sensor/imu" "Imu" 9500000000].

(** The same entry points without [Start]. *)
Definition idle_session : list (Op (ext := Sample.collaborators)) :=
  [DoAddPattern (ext := Sample.collaborators) (Sample.StartsWith "sensor/");
   DoAdvertise (ext := Sample.collaborators) "@/robot@sensor/imu";
   DoMessage 4096 8 "sensor/imu" "Imu" 9000000000;
   DoStop;
   DoAdvertise (ext := Sample.collaborators) "@/robot@sensor/imu"].

(** A pattern, an advertisement that matches it, a recording started. *)
Definition recording_session : list (Op (ext := Sample.collaborators)) :=
  [DoAddPattern (ext := Sample.collaborators) (Sample.StartsWith "sensor/");
   DoAdvertise (ext := Sample.collaborators) "@/robot@sensor/imu";
   DoStart "a.log"].

(** A node in partition "robot" that already knows the topic
    "sensor/imu". *)
Definition imu_node : Sample.node := Sample.mkNode "robot" ["sensor/imu"] [] [].

Definition after (ops : list (Op (ext := Sample.collaborators))) : Private :=
  match run ops fresh with
  | Some p => p
  | None => fresh
  end.

(** The recorder with the patterns [.*] and [cmd] after one
    advertisement of "@/robot@cmd". *)
Definition advertised : State (ext := Sample.collaborators) :=
  match OnAdvertisement (ext := Sample.collaborators) "@/robot@cmd"
          Sample.two_patterns with
  | Some s => s
  | None => Sample.two_patterns
  end.

(** A fresh recorder on the node that knows "sensor/imu". *)
Definition imu_fresh : State (ext := Sample.collaborators) :=
  init (ext := Sample.collaborators) imu_node Sample.disk0.

(** A subscription message and an advertise message on the "abc"
    header. *)
Definition chatter : SubscriptionMsg.t :=
  SubscriptionMsg.mk Sample.abc_header "/chatter".

Definition advert : AdvertiseMessage.t Sample.publisher :=
  AdvertiseMessage.mk Sample.abc_header "@/robot@/chatter".

End SampleRuntime.

(** * Properties *)

(** ** Facts about machine integers and memory *)

Module MachineFacts.
Import Machine.

Lemma to_size_t_small (z : Z) : 0 <= z < 2 ^ 64 -> to_size_t z = z.
Proof. intros H. unfold to_size_t, to_uint64. now apply Z.mod_small. Qed.

Lemma to_int_small (z : Z) : - 2 ^ 31 <= z <= INT_MAX -> to_int z = z.
Proof.
  unfold to_int, INT_MAX. intros H.
  rewrite Z.mod_small by lia. lia.
Qed.

Lemma size_nonneg (s : string) : 0 <= size s.
Proof. unfold size. lia. Qed.

Lemma length_list_byte_of_string (s : string) :
  List.length (list_byte_of_string s) = String.length s.
Proof.
  induction s as [|c s IH]; [reflexivity|].
  change (list_byte_of_string (String c s))
    with (byte_of_ascii c :: list_byte_of_string s).
  simpl. now rewrite IH.
Qed.

Lemma length_load (m : memory) (a : addr) (n : nat) :
  List.length (load m a n) = n.
Proof. unfold load. now rewrite List.length_map, List.length_seq. Qed.

Lemma memcpy_outside (m : memory) (dst : addr) (bs : list byte) (a : addr) :
  a < dst \/ dst + Z.of_nat (List.length bs) <= a ->
  memcpy m dst bs a = m a.
Proof.
  intros H. unfold memcpy.
  destruct (dst <=? a) eqn:E1; destruct (a <? dst + Z.of_nat (List.length bs)) eqn:E2;
    simpl; try reflexivity.
  apply Z.leb_le in E1. apply Z.ltb_lt in E2. lia.
Qed.

Lemma memcpy_inside (m : memory) (dst : addr) (bs : list byte) (i : nat) (d : byte) :
  (i < List.length bs)%nat ->
  memcpy m dst bs (dst + Z.of_nat i) = nth i bs d.
Proof.
  intros H. unfold memcpy.
  replace (dst <=? dst + Z.of_nat i) with true by (symmetry; apply Z.leb_le; lia).
  replace (dst + Z.of_nat i <? dst + Z.of_nat (List.length bs)) with true
    by (symmetry; apply Z.ltb_lt; lia).
  simpl. replace (dst + Z.of_nat i - dst) with (Z.of_nat i) by lia.
  rewrite Nat2Z.id. now apply nth_indep.
Qed.

Lemma nth_load (m : memory) (a : addr) (n i : nat) (d : byte) :
  (i < n)%nat -> nth i (load m a n) d = m (a + Z.of_nat i).
Proof.
  intros Hi. unfold load.
  rewrite (nth_indep _ d (m (a + Z.of_nat 0%nat)))
    by (rewrite List.length_map, List.length_seq; exact Hi).
  rewrite (map_nth (fun j => m (a + Z.of_nat j)) (seq 0 n) 0%nat i).
  now rewrite seq_nth by exact Hi.
Qed.


(** A [memcpy] to a region disjoint from the one read is not seen. *)
Lemma load_memcpy_disjoint (m : memory) (a : addr) (n : nat) (dst : addr)
    (bs : list byte) :
  a + Z.of_nat n <= dst \/ dst + Z.of_nat (List.length bs) <= a ->
  load (memcpy m dst bs) a n = load m a n.
Proof.
  intros H. unfold load. apply List.map_ext_in. intros i Hi.
  apply in_seq in Hi. apply memcpy_outside. lia.
Qed.

Lemma length_string_of_list_byte (bs : list byte) :
  String.length (string_of_list_byte bs) = List.length bs.
Proof.
  rewrite <- (list_byte_of_string_of_list_byte bs) at 2.
  now rewrite length_list_byte_of_string.
Qed.

Lemma load_ext (m m' : memory) (a : addr) (n : nat) :
  (forall x, a <= x < a + Z.of_nat n -> m x = m' x) ->
  load m a n = load m' a n.
Proof.
  intros H. unfold load. apply List.map_ext_in. intros i Hi.
  apply in_seq in Hi. apply H. lia.
Qed.

(** Two adjacent copies are one copy of the concatenation. *)
Lemma memcpy_app (m : memory) (a : addr) (xs ys : list byte) (x : addr) :
  memcpy (memcpy m a xs) (a + Z.of_nat (List.length xs)) ys x
  = memcpy m a (xs ++ ys) x.
Proof.
  destruct (Z.lt_ge_cases x a) as [Hlo|Hlo].
  { rewrite !memcpy_outside by lia. reflexivity. }
  destruct (Z.lt_ge_cases x (a + Z.of_nat (List.length xs))) as [Hx|Hx].
  - rewrite (memcpy_outside _ (a + Z.of_nat (List.length xs))) by lia.
    replace x with (a + Z.of_nat (Z.to_nat (x - a))) by lia.
    rewrite (memcpy_inside _ _ xs _ Byte.x00) by lia.
    rewrite (memcpy_inside _ _ (xs ++ ys) _ Byte.x00)
      by (rewrite List.length_app; lia).
    now rewrite app_nth1 by lia.
  - destruct (Z.lt_ge_cases x (a + Z.of_nat (List.length xs) + Z.of_nat (List.length ys)))
      as [Hy|Hy].
    + replace x with (a + Z.of_nat (List.length xs)
                      + Z.of_nat (Z.to_nat (x - a - Z.of_nat (List.length xs))))
        at 1 by lia.
      rewrite (memcpy_inside _ _ ys _ Byte.x00) by lia.
      replace x with (a + Z.of_nat (Z.to_nat (x - a))) by lia.
      rewrite (memcpy_inside _ _ (xs ++ ys) _ Byte.x00)
        by (rewrite List.length_app; lia).
      rewrite app_nth2 by lia. f_equal. lia.
    + rewrite !memcpy_outside; try reflexivity; try lia.
      rewrite List.length_app. lia.
Qed.

(** Reading one segment out of a copied concatenation. *)
Lemma load_memcpy_middle (m : memory) (a : addr) (pre ys post : list byte) :
  load (memcpy m a (pre ++ ys ++ post)) (a + Z.of_nat (List.length pre))
       (List.length ys) = ys.
Proof.
  apply nth_ext with (d := Byte.x00) (d' := Byte.x00).
  - apply length_load.
  - intros i Hi. rewrite length_load in Hi.
    rewrite nth_load by exact Hi.
    replace (a + Z.of_nat (List.length pre) + Z.of_nat i)
      with (a + Z.of_nat (List.length pre + i)) by lia.
    rewrite (memcpy_inside _ _ _ _ Byte.x00)
      by (rewrite !List.length_app; lia).
    rewrite app_nth2 by lia.
    replace (List.length pre + i - List.length pre)%nat with i by lia.
    now rewrite app_nth1 by lia.
Qed.

End MachineFacts.

(** ** The header codec *)

Module HeaderFacts.
Import Machine MachineFacts.

(** The guard of [Pack] is off exactly for valid headers. *)
Lemma guard_valid (h : Header.t) :
  Header.valid h ->
  (Header.version h =? 0) || String.eqb (Header.pUuid h) ""
  || (Header.type h =? Header.Uninitialized) = false.
Proof.
  intros (Hv & Hu & Ht).
  apply Z.eqb_neq in Hv. apply Z.eqb_neq in Ht.
  apply String.eqb_neq in Hu. now rewrite Hv, Hu, Ht.
Qed.

Lemma guard_invalid (h : Header.t) :
  Header.version h = 0 \/ Header.pUuid h = "" \/ Header.type h = Header.Uninitialized ->
  (Header.version h =? 0) || String.eqb (Header.pUuid h) ""
  || (Header.type h =? Header.Uninitialized) = true.
Proof.
  intros [H|[H|H]]; rewrite H.
  - reflexivity.
  - rewrite String.eqb_refl. now rewrite orb_true_r.
  - rewrite Z.eqb_refl. now rewrite orb_true_r.
Qed.

Lemma nonnull (buf : addr) : buf <> NULL -> (buf =? NULL) = false.
Proof. intros H. now apply Z.eqb_neq. Qed.

(** The header length when it fits the [int] return type. *)
Lemma HeaderLength_fits (h : Header.t) :
  13 + size (Header.pUuid h) <= INT_MAX ->
  Header.HeaderLength h = 2 + 8 + size (Header.pUuid h) + 1 + 2.
Proof.
  intros H. unfold Header.HeaderLength. pose proof (size_nonneg (Header.pUuid h)).
  unfold INT_MAX in H.
  rewrite to_size_t_small by lia. apply to_int_small. unfold INT_MAX. lia.
Qed.

(** In general the length is reduced to 32 bits. *)
Lemma HeaderLength_wraps (h : Header.t) :
  size (Header.pUuid h) < 2 ^ 64 - 13 ->
  Header.HeaderLength h = to_int (13 + size (Header.pUuid h)).
Proof.
  intros H. unfold Header.HeaderLength. pose proof (size_nonneg (Header.pUuid h)).
  rewrite to_size_t_small by lia. f_equal. lia.
Qed.

Lemma length_wire (h : Header.t) :
  Z.of_nat (List.length (Header.wire h)) = 13 + size (Header.pUuid h).
Proof.
  unfold Header.wire, size.
  rewrite !List.length_app, !length_le_split, length_list_byte_of_string. lia.
Qed.

(** Side conditions on the lengths of the segments of the wire image. *)
Ltac segment_lengths :=
  rewrite ?List.length_app, ?length_le_split, ?length_list_byte_of_string;
  unfold size; cbn [List.length]; lia.

Lemma memcpy_chain (m' m : memory) (a b : addr) (xs ys : list byte) (x : addr) :
  (forall y, m' y = memcpy m a xs y) ->
  b = a + Z.of_nat (List.length xs) ->
  memcpy m' b ys x = memcpy m a (xs ++ ys) x.
Proof.
  intros Hm ->. rewrite <- memcpy_app. unfold memcpy at 1 3.
  rewrite Hm. reflexivity.
Qed.

(** What [Pack] does on a valid header and a non-null buffer: it
    returns the header length and copies the wire image to the buffer. *)
Lemma Pack_valid (h : Header.t) (buf : addr) (w : Header.World) :
  Header.wf h -> Header.valid h -> buf <> NULL ->
  fst (Header.Pack h buf w) = to_size_t (Header.HeaderLength h) /\
  Header.cerr (snd (Header.Pack h buf w)) = Header.cerr w /\
  forall a, Header.mem (snd (Header.Pack h buf w)) a
            = memcpy (Header.mem w) buf (Header.wire h) a.
Proof.
  intros (Hv & Hs & Ht & Hf) Hvalid Hbuf. unfold Header.Pack.
  rewrite (guard_valid h Hvalid), (nonnull buf Hbuf). cbn [fst snd Header.set_mem
    Header.mem Header.cerr].
  repeat split. intros a.
  pose proof (size_nonneg (Header.pUuid h)) as Hs0.
  assert (Hlen : to_uint64 (size (Header.pUuid h)) = size (Header.pUuid h))
    by (apply Z.mod_small; lia).
  rewrite Hlen.
  assert (Hall : firstn (Z.to_nat (size (Header.pUuid h)))
                   (list_byte_of_string (Header.pUuid h))
                 = list_byte_of_string (Header.pUuid h)).
  { apply firstn_all2. rewrite length_list_byte_of_string. unfold size. lia. }
  rewrite Hall. unfold Header.wire. rewrite !List.app_assoc.
  eapply memcpy_chain; [|segment_lengths].
  intros y1. eapply memcpy_chain; [|segment_lengths].
  intros y2. eapply memcpy_chain; [|segment_lengths].
  intros y3. eapply memcpy_chain; [|segment_lengths].
  reflexivity.
Qed.

(** What [Unpack] does on a non-null buffer. *)
Lemma Unpack_nonnull (this : Header.t) (buf : addr) (w : Header.World) :
  buf <> NULL ->
  let m := Header.mem w in
  let L := le_combine (load m (buf + 2) 8) in
  let h := Header.mk (le_combine (load m buf 2))
                     (string_of_list_byte (load m (buf + 2 + 8) (Z.to_nat L)))
                     (le_combine (load m (buf + 2 + 8 + L) 1))
                     (le_combine (load m (buf + 2 + 8 + L + 1) 2)) in
  Header.Unpack this buf w = (to_size_t (Header.HeaderLength h), h, w).
Proof.
  intros Hbuf. unfold Header.Unpack. now rewrite (nonnull buf Hbuf).
Qed.

(** The uuid-length field is an unsigned 64-bit number. *)
Lemma length_field_range (m : memory) (a : addr) :
  0 <= le_combine (load m a 8) < 2 ^ 64.
Proof.
  pose proof (le_combine_bound (load m a 8)) as H.
  rewrite length_load in H. exact H.
Qed.

Lemma size_decoded (m : memory) (a : addr) (L : Z) :
  0 <= L -> size (string_of_list_byte (load m a (Z.to_nat L))) = L.
Proof.
  intros H. unfold size. rewrite length_string_of_list_byte, length_load. lia.
Qed.

(** Reading a segment of the wire image back from a memory that holds
    it. *)
Lemma load_segment (m' m : memory) (buf : addr) (pre ys post : list byte)
    (a : addr) (n : nat) :
  (forall x, m' x = memcpy m buf (pre ++ ys ++ post) x) ->
  a = buf + Z.of_nat (List.length pre) -> n = List.length ys ->
  load m' a n = ys.
Proof.
  intros Hm -> ->. rewrite (load_ext m' (memcpy m buf (pre ++ ys ++ post))).
  - apply load_memcpy_middle.
  - intros x _. apply Hm.
Qed.

End HeaderFacts.

Module PacketProperties.
Import Machine MachineFacts HeaderFacts.

Lemma length_replicate (n : nat) (c : ascii) :
  String.length (Sample.replicate n c) = n.
Proof. induction n as [|n IH]; simpl; congruence. Qed.

Lemma replicate_nonempty (n : nat) (c : ascii) :
  n <> 0%nat -> Sample.replicate n c <> EmptyString.
Proof. destruct n; [congruence|discriminate]. Qed.

Lemma size_long_uuid : size (Header.pUuid Sample.long_header) = 2 ^ 31 - 13.
Proof.
  change (Header.pUuid Sample.long_header)
    with (Sample.replicate (Z.to_nat (2 ^ 31 - 13)) "u").
  unfold size. rewrite length_replicate. apply Z2Nat.id. lia.
Qed.

Lemma long_header_wf : Header.wf Sample.long_header.
Proof.
  unfold Header.wf. rewrite size_long_uuid.
  change (Header.version Sample.long_header) with 1.
  change (Header.type Sample.long_header) with 1.
  change (Header.flags Sample.long_header) with 0.
  lia.
Qed.

Lemma long_header_valid : Header.valid Sample.long_header.
Proof.
  unfold Header.valid.
  change (Header.version Sample.long_header) with 1.
  change (Header.type Sample.long_header) with 1.
  change (Header.pUuid Sample.long_header)
    with (Sample.replicate (Z.to_nat (2 ^ 31 - 13)) "u").
  unfold Header.Uninitialized. repeat split; try lia.
  apply replicate_nonempty. lia.
Qed.

(** C1 (amended): for every header [h] that is valid for packing,
    unpacking the non-null buffer that [Pack] filled gives back [h],
    and [Pack] and [Unpack] return the same length, the [int] that
    [HeaderLength] returns for [h], converted to [size_t]; whenever
    [13 + len(process_uuid)] fits that [int], this length is
    [HeaderLength h = 2 + 8 + len(process_uuid) + 1 + 2]. *)
Theorem Header_roundtrip (h this : Header.t) (buf : addr) (w : Header.World) :
  Header.wf h -> Header.valid h -> buf <> NULL ->
  let packed := Header.Pack h buf w in
  let unpacked := Header.Unpack this buf (snd packed) in
  snd (fst unpacked) = h /\
  fst packed = to_size_t (Header.HeaderLength h) /\
  fst (fst unpacked) = fst packed /\
  (13 + size (Header.pUuid h) <= INT_MAX ->
   fst packed = Header.HeaderLength h /\
   fst (fst unpacked) = Header.HeaderLength h /\
   Header.HeaderLength h = 2 + 8 + size (Header.pUuid h) + 1 + 2).
Proof.
  intros Hwf Hvalid Hbuf packed unpacked.
  destruct (Pack_valid h buf w Hwf Hvalid Hbuf) as (Hret & _ & Hmem).
  fold packed in Hret, Hmem.
  pose proof (size_nonneg (Header.pUuid h)) as Hs0.
  destruct Hwf as (Hv & Hs & Ht & Hf).
  assert (HL : le_combine (load (Header.mem (snd packed)) (buf + 2) 8)
               = size (Header.pUuid h)).
  { rewrite (load_segment _ (Header.mem w) buf (le_split 2 (Header.version h))
               (le_split 8 (size (Header.pUuid h)))
               (list_byte_of_string (Header.pUuid h) ++ le_split 1 (Header.type h)
                ++ le_split 2 (Header.flags h))).
    - rewrite le_combine_split. apply Z.mod_small. simpl. lia.
    - exact Hmem.
    - now rewrite length_le_split.
    - now rewrite length_le_split. }
  assert (Hh : snd (fst unpacked) = h).
  { unfold unpacked. rewrite (Unpack_nonnull this buf (snd packed) Hbuf).
    cbn [fst snd]. rewrite HL. destruct h as [v u t f]. cbn [Header.version
      Header.pUuid Header.type Header.flags] in *. f_equal.
    - rewrite (load_segment _ (Header.mem w) buf [] (le_split 2 v)
                 (le_split 8 (size u) ++ list_byte_of_string u ++ le_split 1 t
                  ++ le_split 2 f)).
      + rewrite le_combine_split. apply Z.mod_small. simpl. lia.
      + exact Hmem.
      + simpl. lia.
      + now rewrite length_le_split.
    - rewrite (load_segment _ (Header.mem w) buf (le_split 2 v ++ le_split 8 (size u))
                 (list_byte_of_string u) (le_split 1 t ++ le_split 2 f)).
      + apply string_of_list_byte_of_string.
      + intros x. rewrite Hmem. unfold Header.wire. cbn [Header.version Header.pUuid
          Header.type Header.flags]. now rewrite <- !List.app_assoc.
      + segment_lengths.
      + rewrite length_list_byte_of_string. unfold size. now rewrite Nat2Z.id.
    - rewrite (load_segment _ (Header.mem w) buf
                 (le_split 2 v ++ le_split 8 (size u) ++ list_byte_of_string u)
                 (le_split 1 t) (le_split 2 f)).
      + rewrite le_combine_split. apply Z.mod_small. simpl. lia.
      + intros x. rewrite Hmem. unfold Header.wire. cbn [Header.version Header.pUuid
          Header.type Header.flags]. now rewrite <- !List.app_assoc.
      + segment_lengths.
      + now rewrite length_le_split.
    - rewrite (load_segment _ (Header.mem w) buf
                 (le_split 2 v ++ le_split 8 (size u) ++ list_byte_of_string u
                  ++ le_split 1 t)
                 (le_split 2 f) []).
      + rewrite le_combine_split. apply Z.mod_small. simpl. lia.
      + intros x. rewrite Hmem. unfold Header.wire. cbn [Header.version Header.pUuid
          Header.type Header.flags]. now rewrite List.app_nil_r, <- !List.app_assoc.
      + segment_lengths.
      + now rewrite length_le_split. }
  assert (Hun : fst (fst unpacked) = to_size_t (Header.HeaderLength h)).
  { unfold unpacked in *. rewrite (Unpack_nonnull this buf (snd packed) Hbuf) in *.
    cbn [fst snd] in *. now rewrite Hh. }
  split; [exact Hh|]. split; [exact Hret|]. split; [now rewrite Hun, Hret|].
  intros Hfit. pose proof (HeaderLength_fits h Hfit) as Hlen.
  assert (Hsmall : to_size_t (Header.HeaderLength h) = Header.HeaderLength h)
    by (apply to_size_t_small; unfold INT_MAX in Hfit; lia).
  rewrite Hun, Hret, Hsmall. now repeat split.
Qed.

(** C1 (counterexample): a valid header whose process UUID is
    [2^31 - 13] bytes long has [2 + 8 + len + 1 + 2 = 2^31], but
    [HeaderLength] returns [-2^31] and [Pack] returns [2^64 - 2^31]. *)
Lemma Header_roundtrip_long_uuid :
  Header.wf Sample.long_header /\
  Header.valid Sample.long_header /\
  2 + 8 + size (Header.pUuid Sample.long_header) + 1 + 2 = 2 ^ 31 /\
  Header.HeaderLength Sample.long_header = - 2 ^ 31 /\
  fst (Header.Pack Sample.long_header 4096 (Sample.filled Byte.x00)) = 2 ^ 64 - 2 ^ 31 /\
  fst (Header.Pack Sample.long_header 4096 (Sample.filled Byte.x00))
  <> 2 + 8 + size (Header.pUuid Sample.long_header) + 1 + 2.
Proof.
  assert (HL : Header.HeaderLength Sample.long_header = - 2 ^ 31).
  { rewrite HeaderLength_wraps by (rewrite size_long_uuid; lia).
    rewrite size_long_uuid. replace (13 + (2 ^ 31 - 13)) with (2 ^ 31) by lia.
    reflexivity. }
  assert (HP : fst (Header.Pack Sample.long_header 4096 (Sample.filled Byte.x00))
               = 2 ^ 64 - 2 ^ 31).
  { destruct (Pack_valid Sample.long_header 4096 (Sample.filled Byte.x00)
                long_header_wf long_header_valid) as (Hret & _).
    - unfold NULL. lia.
    - rewrite Hret, HL. reflexivity. }
  split; [exact long_header_wf|]. split; [exact long_header_valid|].
  split; [rewrite size_long_uuid; lia|]. split; [exact HL|]. split; [exact HP|].
  rewrite HP, size_long_uuid. lia.
Qed.

(** The round trip of the "abc" header through a buffer at address
    4096. *)
Lemma Header_roundtrip_witness :
  let packed := Header.Pack Sample.abc_header 4096 (Sample.filled Byte.xff) in
  let unpacked := Header.Unpack (Header.mk 0 "" 0 0) 4096 (snd packed) in
  snd (fst unpacked) = Sample.abc_header /\
  fst packed = to_size_t (Header.HeaderLength Sample.abc_header) /\
  fst (fst unpacked) = fst packed /\
  13 + size (Header.pUuid Sample.abc_header) <= INT_MAX /\
  fst packed = Header.HeaderLength Sample.abc_header /\
  fst (fst unpacked) = Header.HeaderLength Sample.abc_header /\
  Header.HeaderLength Sample.abc_header
  = 2 + 8 + size (Header.pUuid Sample.abc_header) + 1 + 2.
Proof.
  assert (Hfit : 13 + size (Header.pUuid Sample.abc_header) <= INT_MAX)
    by (unfold INT_MAX, size, Sample.abc_header; simpl; lia).
  destruct (Header_roundtrip Sample.abc_header (Header.mk 0 "" 0 0) 4096
              (Sample.filled Byte.xff)) as (Hh & Hp & Hu & Hlen).
  - unfold Header.wf, size, Sample.abc_header, Header.AdvType. simpl. lia.
  - unfold Header.valid, Header.Uninitialized, Sample.abc_header, Header.AdvType.
    simpl. repeat split; [lia|discriminate|lia].
  - unfold NULL. lia.
  - destruct (Hlen Hfit) as (H1 & H2 & H3).
    exact (conj Hh (conj Hp (conj Hu (conj Hfit (conj H1 (conj H2 H3)))))).
Defined.

Lemma abc_header_wf : Header.wf Sample.abc_header.
Proof.
  unfold Header.wf, size, Sample.abc_header, Header.AdvType. simpl. lia.
Qed.

Lemma abc_header_valid : Header.valid Sample.abc_header.
Proof.
  unfold Header.valid, Header.Uninitialized, Sample.abc_header, Header.AdvType.
  simpl. repeat split; [lia|discriminate|lia].
Qed.

Lemma abc_header_fits : 13 + size (Header.pUuid Sample.abc_header) <= INT_MAX.
Proof. unfold INT_MAX, size, Sample.abc_header. simpl. lia. Qed.

Lemma buffer_4096_nonnull : 4096 <> NULL.
Proof. unfold NULL. lia. Qed.

(** C4 (counterexample): for version 1, process UUID "abc", type
    Advertise and flags 0, [HeaderLength] returns 16, not 15, and
    [Pack] returns 16; in a 15-byte buffer at address 4096 the byte at
    offset 15, one past the buffer's end, is overwritten. *)
Lemma abc_header_length_not_15 :
  Header.HeaderLength Sample.abc_header <> 15 /\
  fst (Header.Pack Sample.abc_header 4096 (Sample.filled Byte.xff)) <> 15 /\
  Header.mem (snd (Header.Pack Sample.abc_header 4096 (Sample.filled Byte.xff)))
    (4096 + 15) = Byte.x00 /\
  Header.mem (Sample.filled Byte.xff) (4096 + 15) = Byte.xff.
Proof. vm_compute. repeat split; discriminate. Qed.

(** C4 (amended): for the header with version 1, process UUID "abc",
    type Advertise and flags 0, [HeaderLength] returns 16 and [Pack]
    into a buffer returns 16, after writing the 16 bytes of the wire
    layout: version, the 8-byte length 3, "abc", the type and the
    flags. *)
Theorem abc_header_length_16 (buf : addr) (w : Header.World) :
  buf <> NULL ->
  Header.HeaderLength Sample.abc_header = 16 /\
  fst (Header.Pack Sample.abc_header buf w) = 16 /\
  load (Header.mem (snd (Header.Pack Sample.abc_header buf w))) buf 16
  = [Byte.x01; Byte.x00;
     Byte.x03; Byte.x00; Byte.x00; Byte.x00; Byte.x00; Byte.x00; Byte.x00; Byte.x00;
     Byte.x61; Byte.x62; Byte.x63;
     Byte.x01;
     Byte.x00; Byte.x00].
Proof.
  intros Hbuf.
  destruct (Pack_valid Sample.abc_header buf w abc_header_wf abc_header_valid Hbuf)
    as (Hret & _ & Hmem).
  split; [reflexivity|]. split; [rewrite Hret; reflexivity|].
  apply (load_segment _ (Header.mem w) buf [] _ []).
  - intros x. rewrite Hmem. reflexivity.
  - simpl. lia.
  - reflexivity.
Qed.

Lemma abc_header_length_16_witness :
  Header.HeaderLength Sample.abc_header = 16 /\
  fst (Header.Pack Sample.abc_header 4096 (Sample.filled Byte.xff)) = 16 /\
  load (Header.mem (snd (Header.Pack Sample.abc_header 4096 (Sample.filled Byte.xff))))
    4096 16
  = [Byte.x01; Byte.x00;
     Byte.x03; Byte.x00; Byte.x00; Byte.x00; Byte.x00; Byte.x00; Byte.x00; Byte.x00;
     Byte.x61; Byte.x62; Byte.x63;
     Byte.x01;
     Byte.x00; Byte.x00].
Proof.
  apply (abc_header_length_16 4096 (Sample.filled Byte.xff)).
  unfold NULL. lia.
Defined.

(** C5: whenever [h.version == 0], or [h.process_uuid] is empty, or
    [h.type == Uninitialized], [Pack] returns 0, leaves the memory as
    it was and appends its "incomplete header" diagnostic to
    [std::cerr]; this holds for every buffer pointer, null or not. *)
Theorem Pack_incomplete (h : Header.t) (buf : addr) (w : Header.World) :
  Header.version h = 0 \/ Header.pUuid h = "" \/ Header.type h = Header.Uninitialized ->
  fst (Header.Pack h buf w) = 0 /\
  Header.mem (snd (Header.Pack h buf w)) = Header.mem w /\
  Header.cerr (snd (Header.Pack h buf w))
  = (Header.cerr w
     ++ [Header.Text "Header::Pack() error: You're trying to pack an incomplete ";
         Header.Text "header:"; Header.Endl; Header.Dump h])%list.
Proof.
  intros H. unfold Header.Pack. rewrite (guard_invalid h H). now cbn.
Qed.

Lemma Pack_incomplete_witness :
  let h := Header.mk 1 "" Header.AdvType 0 in
  let w := Sample.filled Byte.xff in
  fst (Header.Pack h 4096 w) = 0 /\
  Header.mem (snd (Header.Pack h 4096 w)) = Header.mem w /\
  Header.cerr (snd (Header.Pack h 4096 w))
  = (Header.cerr w
     ++ [Header.Text "Header::Pack() error: You're trying to pack an incomplete ";
         Header.Text "header:"; Header.Endl; Header.Dump h])%list.
Proof.
  apply (Pack_incomplete (Header.mk 1 "" Header.AdvType 0) 4096
           (Sample.filled Byte.xff)).
  right. left. reflexivity.
Defined.

(** C7 (counterexample): the "abc" header is valid and 16 bytes long;
    with a 4-byte destination at address 4096, [Pack] returns 16, not
    0, and overwrites the byte at offset 13, past the buffer's end. *)
Lemma Pack_small_buffer :
  let capacity := 4 in
  let w := Sample.filled Byte.xff in
  Header.valid Sample.abc_header /\
  capacity < Header.HeaderLength Sample.abc_header /\
  fst (Header.Pack Sample.abc_header 4096 w) <> 0 /\
  4096 + capacity <= 4096 + 13 /\
  Header.mem (snd (Header.Pack Sample.abc_header 4096 w)) (4096 + 13)
  <> Header.mem w (4096 + 13).
Proof.
  split; [exact abc_header_valid|]. vm_compute. repeat split; discriminate.
Qed.

(** C7 (amended): [Pack] receives a pointer and no capacity, and makes
    no size check.  For every header that is valid for packing and
    every non-null destination, whatever the size of the buffer behind
    the pointer, it writes the [13 + len(process_uuid)] bytes of the
    wire image from the start of the destination, leaves every other
    byte as it was, and returns the [int] of [HeaderLength] converted
    to [size_t]; when [13 + len(process_uuid)] fits an [int] the value
    returned is [header_length(h) = 13 + len(process_uuid)], which is
    not 0. *)
Theorem Pack_no_capacity_check (h : Header.t) (buf : addr) (w : Header.World) :
  Header.wf h -> Header.valid h -> buf <> NULL ->
  let w' := snd (Header.Pack h buf w) in
  fst (Header.Pack h buf w) = to_size_t (Header.HeaderLength h) /\
  load (Header.mem w') buf (Z.to_nat (13 + size (Header.pUuid h))) = Header.wire h /\
  (forall a, a < buf \/ buf + (13 + size (Header.pUuid h)) <= a ->
             Header.mem w' a = Header.mem w a) /\
  (13 + size (Header.pUuid h) <= INT_MAX ->
   fst (Header.Pack h buf w) = Header.HeaderLength h /\
   Header.HeaderLength h = 13 + size (Header.pUuid h) /\
   fst (Header.Pack h buf w) <> 0).
Proof.
  intros Hwf Hvalid Hbuf w'.
  destruct (Pack_valid h buf w Hwf Hvalid Hbuf) as (Hret & _ & Hmem).
  pose proof (size_nonneg (Header.pUuid h)) as Hs0.
  pose proof (length_wire h) as Hw.
  split; [exact Hret|]. split; [|split].
  - apply (load_segment _ (Header.mem w) buf [] _ []).
    + intros x. unfold w'. rewrite Hmem. now rewrite List.app_nil_r.
    + simpl. lia.
    + lia.
  - intros a Ha. unfold w'. rewrite Hmem. apply memcpy_outside. lia.
  - intros Hfit. pose proof (HeaderLength_fits h Hfit) as Hlen.
    assert (Hsmall : to_size_t (Header.HeaderLength h) = Header.HeaderLength h)
      by (apply to_size_t_small; unfold INT_MAX in Hfit; lia).
    rewrite Hret, Hsmall. repeat split; lia.
Qed.

Lemma Pack_no_capacity_check_witness :
  let w := Sample.filled Byte.xff in
  let w' := snd (Header.Pack Sample.abc_header 4096 w) in
  fst (Header.Pack Sample.abc_header 4096 w)
  = to_size_t (Header.HeaderLength Sample.abc_header) /\
  load (Header.mem w') 4096 (Z.to_nat (13 + size (Header.pUuid Sample.abc_header)))
  = Header.wire Sample.abc_header /\
  (forall a, a < 4096 \/ 4096 + (13 + size (Header.pUuid Sample.abc_header)) <= a ->
             Header.mem w' a = Header.mem w a) /\
  13 + size (Header.pUuid Sample.abc_header) <= INT_MAX /\
  fst (Header.Pack Sample.abc_header 4096 w) = Header.HeaderLength Sample.abc_header /\
  Header.HeaderLength Sample.abc_header = 13 + size (Header.pUuid Sample.abc_header) /\
  fst (Header.Pack Sample.abc_header 4096 w) <> 0.
Proof.
  destruct (Pack_no_capacity_check Sample.abc_header 4096 (Sample.filled Byte.xff)
              abc_header_wf abc_header_valid buffer_4096_nonnull)
    as (Hret & Hload & Hframe & Hfit).
  destruct (Hfit abc_header_fits) as (H1 & H2 & H3).
  exact (conj Hret (conj Hload (conj Hframe
           (conj abc_header_fits (conj H1 (conj H2 H3)))))).
Defined.

Lemma Pack_null (h : Header.t) (w : Header.World) :
  fst (Header.Pack h NULL w) = 0.
Proof.
  unfold Header.Pack.
  destruct ((Header.version h =? 0) || String.eqb (Header.pUuid h) ""
            || (Header.type h =? Header.Uninitialized)); reflexivity.
Qed.

(** C6: every [Pack] and every [Unpack] of the three codecs returns 0
    on a null buffer.  [AdvertiseMessage::Unpack] has no check of its
    own and hands the pointer to the publisher's [Unpack]; it returns 0
    because the publisher's [Unpack], as every unpack of the spec,
    returns 0 on a null buffer. *)
Theorem null_buffer_returns_0 {Publisher : Type} {codec : PublisherCodec Publisher}
    (h : Header.t) (s : SubscriptionMsg.t) (a : AdvertiseMessage.t Publisher)
    (w : Header.World) :
  (forall (p : Publisher) (w0 : Header.World),
      fst (fst (Publisher_Unpack p NULL w0)) = 0) ->
  fst (Header.Pack h NULL w) = 0 /\
  fst (fst (Header.Unpack h NULL w)) = 0 /\
  fst (SubscriptionMsg.Pack s NULL w) = 0 /\
  fst (fst (SubscriptionMsg.Unpack s NULL w)) = 0 /\
  fst (AdvertiseMessage.Pack a NULL w) = 0 /\
  fst (fst (AdvertiseMessage.Unpack a NULL w)) = 0.
Proof.
  intros Hpub. repeat apply conj.
  - apply Pack_null.
  - reflexivity.
  - unfold SubscriptionMsg.Pack.
    pose proof (Pack_null (SubscriptionMsg.header s) w) as H0.
    destruct (Header.Pack (SubscriptionMsg.header s) NULL w) as [n w1].
    cbn [fst] in H0. subst n. reflexivity.
  - reflexivity.
  - unfold AdvertiseMessage.Pack.
    pose proof (Pack_null (AdvertiseMessage.header a) w) as H0.
    destruct (Header.Pack (AdvertiseMessage.header a) NULL w) as [n w1].
    cbn [fst] in H0. subst n. reflexivity.
  - unfold AdvertiseMessage.Unpack.
    pose proof (Hpub (AdvertiseMessage.publisher a) w) as H0.
    destruct (Publisher_Unpack (AdvertiseMessage.publisher a) NULL w) as [[n p] w1].
    cbn [fst] in H0. subst n. reflexivity.
Qed.

#[local] Existing Instance Sample.publisher_codec.

Lemma null_buffer_returns_0_witness :
  let h := Sample.abc_header in
  let s := SubscriptionMsg.mk Sample.abc_header "/chatter" in
  let a := AdvertiseMessage.mk Sample.abc_header ("@/robot@/chatter" : Sample.publisher) in
  let w := Sample.filled Byte.x00 in
  fst (Header.Pack h NULL w) = 0 /\
  fst (fst (Header.Unpack h NULL w)) = 0 /\
  fst (SubscriptionMsg.Pack s NULL w) = 0 /\
  fst (fst (SubscriptionMsg.Unpack s NULL w)) = 0 /\
  fst (AdvertiseMessage.Pack a NULL w) = 0 /\
  fst (fst (AdvertiseMessage.Unpack a NULL w)) = 0.
Proof.
  apply (null_buffer_returns_0 (codec := Sample.publisher_codec)).
  intros p w0. reflexivity.
Defined.




End PacketProperties.

(** ** The recorder *)

Module RecorderProperties.
Import Recorder.

Section WithCollaborators.
Context {ext : Collaborators}.

Lemma union_list_nil (A : gset string) : A = A ∪ list_to_set [].
Proof. cbn. now rewrite union_empty_r_L. Qed.

Lemma union_list_cons (A : gset string) (t : string) (l : list string) :
  {[ t ]} ∪ A ∪ list_to_set l = A ∪ list_to_set (t :: l).
Proof.
  cbn. rewrite (comm_L (∪) {[ t ]} A). now rewrite <- (assoc_L (∪)).
Qed.

(** [AddTopic(name)] makes one [SubscribeRaw] call and records the
    topic when the call succeeds. *)
Lemma AddTopic_spec (t : string) (s : State) :
  let ok := fst (Node_SubscribeRaw t (node s)) in
  let r := AddTopic t s in
  fst r = (if ok then NO_ERROR else FAILED_TO_SUBSCRIBE) /\
  calls (snd r) = (calls s ++ [SubscribeRaw t ok])%list /\
  alreadySubscribed (snd r)
  = (if ok then {[ t ]} ∪ alreadySubscribed s else alreadySubscribed s) /\
  node (snd r) = snd (Node_SubscribeRaw t (node s)) /\
  patterns (snd r) = patterns s /\
  logFile (snd r) = logFile s /\
  storage (snd r) = storage s.
Proof.
  unfold AddTopic. cbn [say node calls].
  destruct (Node_SubscribeRaw t (node s)) as [[|] n]; cbn; repeat apply conj;
    reflexivity.
Qed.

(** The loop of [AddTopic(pattern)]: either some subscription fails,
    and the loop returns at once after the calls made so far, or every
    matching topic is subscribed to and counted. *)
Lemma AddTopic_loop_spec (p : regex) (ts : list string) :
  forall (num : Z) (s : State),
    let r := AddTopic_loop p ts num s in
    let ms := matching p ts in
    patterns (snd r) = patterns s /\
    logFile (snd r) = logFile s /\
    ((exists (k : nat) (t : string),
         nth_error ms k = Some t /\
         fst r = Returned (RecorderError_value FAILED_TO_SUBSCRIBE) /\
         calls (snd r)
         = (calls s ++ accepted (firstn k ms) ++ [SubscribeRaw t false])%list /\
         alreadySubscribed (snd r)
         = alreadySubscribed s ∪ list_to_set (firstn k ms))
     \/
     (fst r = Completed (num + Z.of_nat (List.length ms)) /\
      calls (snd r) = (calls s ++ accepted ms)%list /\
      alreadySubscribed (snd r) = alreadySubscribed s ∪ list_to_set ms)).
Proof.
  induction ts as [|t ts IH]; intros num s r ms.
  - subst r ms. cbn. repeat apply conj; try reflexivity. right.
    repeat apply conj.
    + f_equal. lia.
    + now rewrite List.app_nil_r.
    + apply union_list_nil.
  - subst r ms. cbn [AddTopic_loop matching List.filter].
    destruct (regex_match t p) eqn:Hm.
    + destruct (AddTopic_spec t s) as (Hr & Hc & Ha & _ & Hp & Hl & _).
      destruct (AddTopic t s) as [err s1]. cbn [fst snd] in *.
      destruct (fst (Node_SubscribeRaw t (node s))) eqn:Hok; subst err.
      * specialize (IH (num + 1) s1). cbv zeta in IH. fold (matching p ts) in *.
        destruct IH as (IHp & IHl & IH). repeat apply conj; try congruence.
        destruct IH as [(k & t' & Hk & Hret & Hcalls & Hset)|(Hret & Hcalls & Hset)].
        -- left. exists (S k), t'. repeat apply conj.
           ++ exact Hk.
           ++ exact Hret.
           ++ rewrite Hcalls, Hc. cbn. now rewrite <- List.app_assoc.
           ++ rewrite Hset, Ha. apply union_list_cons.
        -- right. repeat apply conj.
           ++ rewrite Hret. f_equal. cbn [List.length]. lia.
           ++ rewrite Hcalls, Hc. cbn. now rewrite <- List.app_assoc.
           ++ rewrite Hset, Ha. apply union_list_cons.
      * cbn [fst snd]. repeat apply conj; try congruence. left. exists 0%nat, t.
        repeat apply conj; try reflexivity.
        -- rewrite Hc. reflexivity.
        -- rewrite Ha. apply union_list_nil.
    + specialize (IH num (say DBG ("Not recording " ++ t ++ nl) s)).
      cbv zeta in IH. fold (matching p ts) in *. exact IH.
Qed.


End WithCollaborators.

(** *** [strcmp] decides equality of C strings *)

Lemma code_inj (x y : ascii) : code x = code y -> x = y.
Proof.
  unfold code. intros H. apply N2Z.inj in H.
  rewrite <- (ascii_N_embedding x), <- (ascii_N_embedding y). now rewrite H.
Qed.

Lemma code_zero (x : ascii) : code x = 0 <-> x = zero.
Proof.
  split.
  - intros H. apply code_inj. rewrite H. reflexivity.
  - intros ->. reflexivity.
Qed.

Lemma strcmp_eq_0 (a : string) :
  forall b : string, strcmp a b = 0 <-> until_nul a = until_nul b.
Proof.
  induction a as [|x a IH]; intros [|y b]; cbn [strcmp until_nul front_or_nul].
  - split; reflexivity.
  - destruct (Ascii.eqb_spec y zero) as [->|Hy].
    + split; reflexivity.
    + split; [|discriminate]. intros H. exfalso. apply Hy, code_zero. lia.
  - destruct (Ascii.eqb_spec x zero) as [->|Hx].
    + split; reflexivity.
    + split; [|discriminate]. intros H. exfalso. now apply Hx, code_zero.
  - destruct (Ascii.eqb_spec x y) as [->|Hxy].
    + destruct (Ascii.eqb_spec y zero) as [->|Hy].
      * split; reflexivity.
      * rewrite IH. split; [congruence|]. now intros [= ->].
    + split.
      * intros H. exfalso. apply Hxy, code_inj. lia.
      * destruct (Ascii.eqb_spec x zero) as [->|Hx];
          destruct (Ascii.eqb_spec y zero) as [->|Hy];
          try discriminate; try congruence.
  Qed.

(** A string without NUL is its own C string. *)
Lemma until_nul_nul_free (s : string) : nul_free s = true -> until_nul s = s.
Proof.
  induction s as [|c s IH]; cbn; [reflexivity|].
  destruct (Ascii.eqb c zero); cbn; [discriminate|]. intros H. now rewrite IH.
Qed.

Section Handler.
Context {ext : Collaborators}.

Lemma Start_while_recording (_file : string) (s : State) (l : Log) :
  logFile s = Some l ->
  Start _file s
  = (ALREADY_RECORDING, say WRN ("Recording is already in progress" ++ nl) s).
Proof. intros Hl. unfold Start. now rewrite Hl. Qed.

(** C2: when the log is set (a previous [Start] succeeded and no [Stop]
    came in between), [Start(p')] returns [ALREADY_RECORDING], makes
    no call at all, so does not open [p'], and leaves the log, the
    storage and the rest of the recorder as they were; when no log is
    set and opening the new file fails, [Start] returns
    [FAILED_TO_OPEN] and the log is unset again.  In particular, after
    [Start(p)] has returned [NO_ERROR], [Start(p')] returns
    [ALREADY_RECORDING] without a call. *)
Theorem Start_guards (_file : string) (s : State) :
  (forall l : Log,
      logFile s = Some l ->
      fst (Start _file s) = ALREADY_RECORDING /\
      logFile (snd (Start _file s)) = Some l /\
      calls (snd (Start _file s)) = calls s /\
      storage (snd (Start _file s)) = storage s /\
      patterns (snd (Start _file s)) = patterns s /\
      alreadySubscribed (snd (Start _file s)) = alreadySubscribed s /\
      node (snd (Start _file s)) = node s) /\
  (logFile s = None ->
   fst (fst (Log_Open Log_new _file (storage s))) = false ->
   fst (Start _file s) = FAILED_TO_OPEN /\
   logFile (snd (Start _file s)) = None /\
   calls (snd (Start _file s)) = (calls s ++ [LogOpen _file false])%list) /\
  (forall p' : string,
      fst (Start _file s) = NO_ERROR ->
      fst (Start p' (snd (Start _file s))) = ALREADY_RECORDING /\
      calls (snd (Start p' (snd (Start _file s)))) = calls (snd (Start _file s)) /\
      logFile (snd (Start p' (snd (Start _file s)))) = logFile (snd (Start _file s))).
Proof.
  repeat apply conj.
  - intros l Hl. rewrite (Start_while_recording _file s l Hl). cbn.
    repeat apply conj; try reflexivity. exact Hl.
  - intros Hnone Hfail. unfold Start. rewrite Hnone.
    destruct (Log_Open Log_new _file (storage s)) as [[ok l] st].
    cbn [fst] in Hfail. subst ok. cbn. repeat apply conj; reflexivity.
  - intros p' Hok.
    assert (Hsome : exists l, logFile (snd (Start _file s)) = Some l).
    { revert Hok. unfold Start. destruct (logFile s) as [l|]; [discriminate|].
      destruct (Log_Open Log_new _file (storage s)) as [[[|] l] st]; cbn;
        [|discriminate].
      intros _. now exists l. }
    destruct Hsome as [l Hl].
    rewrite (Start_while_recording p' (snd (Start _file s)) l Hl). cbn.
    repeat apply conj; reflexivity.
Qed.

(** The loop of the handler makes one [SubscribeRaw] call for each
    stored pattern that matches the topic. *)
Lemma OnAdvertisement_loop_calls (topic : string) (ps : list regex) :
  forall s : State,
    List.length (calls (OnAdvertisement_loop topic ps s))
    = (List.length (calls s)
       + List.length (List.filter (fun p => regex_match topic p) ps))%nat.
Proof.
  induction ps as [|p ps IH]; intros s; cbn [OnAdvertisement_loop List.filter].
  - cbn. lia.
  - destruct (regex_match topic p).
    + rewrite IH. destruct (AddTopic_spec topic s) as (_ & Hc & _).
      rewrite Hc, List.length_app. cbn. lia.
    + apply IH.
Qed.

(** C9: for an advertisement whose fully-qualified topic decomposes
    into [(adv_partition, topic)], the advertised partition beginning
    with ['/']: the handler compares the node's partition with
    [adv_partition] from offset 0 when the node's partition begins with
    ['/'] and from offset 1 otherwise; the two are equal exactly when
    they hold the same C string; when they differ the advertisement is
    dropped and the recorder, its calls and its subscribed set are left
    as they were, and when they are equal the handler goes on to the
    subscribed-set check.  Node partition "robot" matches the
    advertised partition "/robot" and does not match "/other". *)
Theorem OnAdvertisement_partition (_publisher : Publisher) (s : State)
    (adv_partition topic : string) :
  DecomposeFullyQualifiedTopic (Publisher_Topic _publisher)
  = Some (adv_partition, topic) ->
  front_or_nul adv_partition = "/"%char ->
  let nodePartition := Node_Partition (node s) in
  let offset :=
    if Ascii.eqb (front_or_nul nodePartition) "/" then 0%nat else 1%nat in
  let equal := strcmp nodePartition (drop_chars offset adv_partition) =? 0 in
  partition_matches nodePartition adv_partition = Some equal /\
  (equal = true
   <-> until_nul nodePartition = until_nul (drop_chars offset adv_partition)) /\
  (equal = false -> OnAdvertisement _publisher s = Some s) /\
  (equal = true ->
   OnAdvertisement _publisher s
   = Some (if decide (topic ∈ alreadySubscribed s) then s
           else OnAdvertisement_loop topic (patterns s) s)) /\
  partition_matches "robot" "/robot" = Some true /\
  partition_matches "robot" "/other" = Some false.
Proof.
  intros Hdec Hslash nodePartition offset equal.
  assert (Hpm : partition_matches nodePartition adv_partition = Some equal).
  { unfold partition_matches, c_str_from, startCmp. fold offset.
    destruct adv_partition as [|c rest]; [discriminate|].
    assert (Hle : (offset <=? String.length (String c rest))%nat = true).
    { apply Nat.leb_le. subst offset. cbn [String.length].
      destruct (Ascii.eqb (front_or_nul nodePartition) "/"); lia. }
    now rewrite Hle. }
  split; [exact Hpm|].
  split; [subst equal; rewrite Z.eqb_eq; apply strcmp_eq_0|].
  repeat apply conj.
  - intros Heq. unfold OnAdvertisement. rewrite Hdec. fold nodePartition.
    now rewrite Hpm, Heq.
  - intros Heq. unfold OnAdvertisement. rewrite Hdec. fold nodePartition.
    rewrite Hpm, Heq. now destruct (decide (topic ∈ alreadySubscribed s)).
  - reflexivity.
  - reflexivity.
Qed.

End Handler.

#[local] Existing Instance Sample.collaborators.

Lemma Start_guards_witness :
  (fst (Start "b.log" Sample.recording) = ALREADY_RECORDING /\
   logFile (snd (Start "b.log" Sample.recording)) = Some (Some "a.log") /\
   calls (snd (Start "b.log" Sample.recording)) = calls Sample.recording /\
   storage (snd (Start "b.log" Sample.recording)) = storage Sample.recording /\
   patterns (snd (Start "b.log" Sample.recording)) = patterns Sample.recording /\
   alreadySubscribed (snd (Start "b.log" Sample.recording))
   = alreadySubscribed Sample.recording /\
   node (snd (Start "b.log" Sample.recording)) = node Sample.recording) /\
  (fst (Start "locked.log" Sample.fresh) = FAILED_TO_OPEN /\
   logFile (snd (Start "locked.log" Sample.fresh)) = None /\
   calls (snd (Start "locked.log" Sample.fresh))
   = (calls Sample.fresh ++ [LogOpen "locked.log" false])%list).
Proof.
  split.
  - apply (proj1 (Start_guards "b.log" Sample.recording) (Some "a.log")).
    reflexivity.
  - apply (proj1 (proj2 (Start_guards "locked.log" Sample.fresh))); reflexivity.
Defined.

Lemma OnAdvertisement_partition_witness :
  let s := Sample.two_patterns in
  let equal := strcmp "robot" (drop_chars 1 "/other") =? 0 in
  partition_matches "robot" "/other" = Some equal /\
  (equal = true <-> until_nul "robot" = until_nul (drop_chars 1 "/other")) /\
  (equal = false -> OnAdvertisement (ext := Sample.collaborators) "@/other@cmd" s = Some s) /\
  (equal = true ->
   OnAdvertisement (ext := Sample.collaborators) "@/other@cmd" s
   = Some (if decide ("cmd" ∈ alreadySubscribed s) then s
           else OnAdvertisement_loop "cmd" (patterns s) s)) /\
  partition_matches "robot" "/robot" = Some true /\
  partition_matches "robot" "/other" = Some false.
Proof.
  apply (OnAdvertisement_partition (ext := Sample.collaborators) "@/other@cmd"
           Sample.two_patterns "/other" "cmd"); reflexivity.
Defined.

(** C3 (the code at the failing input): a recorder in partition
    "robot" holds the patterns [.*] and [cmd] and has made no
    subscription; both patterns match the topic "cmd".  One
    advertisement of "@/robot@cmd" makes the handler call
    [SubscribeRaw("cmd")] twice, and both calls succeed. *)
Theorem OnAdvertisement_subscribes_twice :
  regex_match "cmd" Sample.AnyTopic = true /\
  regex_match "cmd" (Sample.Exactly "cmd") = true /\
  patterns Sample.two_patterns = [Sample.AnyTopic; Sample.Exactly "cmd"] /\
  calls Sample.two_patterns = [] /\
  option_map calls
    (OnAdvertisement (ext := Sample.collaborators) "@/robot@cmd" Sample.two_patterns)
  = Some [SubscribeRaw "cmd" true; SubscribeRaw "cmd" true] /\
  option_map (fun s => subscribed_count "cmd" (calls s))
    (OnAdvertisement (ext := Sample.collaborators) "@/robot@cmd" Sample.two_patterns)
  = Some 2%nat.
Proof. vm_compute. repeat apply conj; reflexivity. Qed.

End RecorderProperties.

(** ** More on the codecs *)

Module CodecProperties.
Import Machine MachineFacts HeaderFacts.

Lemma load_app (m : memory) (a : addr) (n1 n2 : nat) :
  load m a (n1 + n2) = (load m a n1 ++ load m (a + Z.of_nat n1) n2)%list.
Proof.
  apply nth_ext with (d := Byte.x00) (d' := Byte.x00).
  - now rewrite List.length_app, !length_load.
  - intros i Hi. rewrite length_load in Hi. rewrite nth_load by exact Hi.
    destruct (Nat.lt_ge_cases i n1) as [Hlt|Hge].
    + rewrite app_nth1 by (rewrite length_load; exact Hlt).
      now rewrite nth_load by exact Hlt.
    + rewrite app_nth2 by (rewrite length_load; exact Hge).
      rewrite length_load, nth_load by lia. f_equal. lia.
Qed.

Lemma guard_off_valid (h : Header.t) :
  (Header.version h =? 0) || String.eqb (Header.pUuid h) ""
  || (Header.type h =? Header.Uninitialized) = false ->
  Header.valid h.
Proof.
  intros G. apply orb_false_iff in G. destruct G as [G Ht].
  apply orb_false_iff in G. destruct G as [Hv Hu].
  apply Z.eqb_neq in Hv. apply Z.eqb_neq in Ht. apply String.eqb_neq in Hu.
  now repeat split.
Qed.

(** X1: For a header whose length fits an [int], [Header::Pack] returns 0
    exactly when the header is not valid for packing or the buffer is
    null; whenever it returns 0 it has written nothing to memory and
    something to [std::cerr]. *)
Theorem Pack_returns_0_iff (h : Header.t) (buf : addr) (w : Header.World) :
  13 + size (Header.pUuid h) <= INT_MAX ->
  (fst (Header.Pack h buf w) = 0 <-> ~ Header.valid h \/ buf = NULL) /\
  (fst (Header.Pack h buf w) = 0 ->
   Header.mem (snd (Header.Pack h buf w)) = Header.mem w /\
   exists d : list Header.cerr_item,
     d <> [] /\ Header.cerr (snd (Header.Pack h buf w)) = (Header.cerr w ++ d)%list).
Proof.
  intros Hfit. pose proof (HeaderLength_fits h Hfit) as Hlen.
  pose proof (size_nonneg (Header.pUuid h)) as Hs0.
  assert (Hpos : to_size_t (Header.HeaderLength h) <> 0).
  { rewrite to_size_t_small by (unfold INT_MAX in Hfit; lia). lia. }
  unfold Header.Pack.
  destruct ((Header.version h =? 0) || String.eqb (Header.pUuid h) ""
            || (Header.type h =? Header.Uninitialized)) eqn:G.
  - cbn. split.
    + split; [|reflexivity]. intros _. left. intros V.
      rewrite (guard_valid h V) in G. discriminate.
    + intros _. split; [reflexivity|]. eexists. split; [|reflexivity]. discriminate.
  - destruct (buf =? NULL) eqn:B.
    + cbn. apply Z.eqb_eq in B. split.
      * split; [|reflexivity]. intros _. now right.
      * intros _. split; [reflexivity|]. eexists. split; [|reflexivity]. discriminate.
    + cbn [fst snd]. apply Z.eqb_neq in B. split.
      * split; [intros H0; contradiction|].
        intros [Hn|Hn]; [exfalso; apply Hn, guard_off_valid, G|contradiction].
      * intros H0. contradiction.
Qed.

Lemma Pack_returns_0_iff_witness :
  (fst (Header.Pack Sample.abc_header 4096 (Sample.filled Byte.xff)) = 0
   <-> ~ Header.valid Sample.abc_header \/ 4096 = NULL) /\
  (fst (Header.Pack Sample.abc_header 4096 (Sample.filled Byte.xff)) = 0 ->
   Header.mem (snd (Header.Pack Sample.abc_header 4096 (Sample.filled Byte.xff)))
   = Header.mem (Sample.filled Byte.xff) /\
   exists d : list Header.cerr_item,
     d <> [] /\
     Header.cerr (snd (Header.Pack Sample.abc_header 4096 (Sample.filled Byte.xff)))
     = (Header.cerr (Sample.filled Byte.xff) ++ d)%list).
Proof.
  apply (Pack_returns_0_iff Sample.abc_header 4096 (Sample.filled Byte.xff)).
  unfold INT_MAX, size, Sample.abc_header. simpl. lia.
Defined.

(** The header [Unpack] builds from a buffer. *)
Lemma Unpack_wf (this : Header.t) (buf : addr) (w : Header.World) :
  buf <> NULL -> Header.wf (snd (fst (Header.Unpack this buf w))).
Proof.
  intros Hbuf. rewrite (Unpack_nonnull this buf w Hbuf). cbn [fst snd].
  pose proof (length_field_range (Header.mem w) (buf + 2)) as HL.
  unfold Header.wf. cbn [Header.version Header.pUuid Header.type Header.flags].
  rewrite size_decoded by lia.
  pose proof (le_combine_bound (load (Header.mem w) buf 2)) as H2.
  pose proof (le_combine_bound
                (load (Header.mem w)
                   (buf + 2 + 8 + le_combine (load (Header.mem w) (buf + 2) 8)) 1)) as H1.
  pose proof (le_combine_bound
                (load (Header.mem w)
                   (buf + 2 + 8 + le_combine (load (Header.mem w) (buf + 2) 8) + 1) 2))
    as H3.
  rewrite length_load in H1, H2, H3. simpl in H1, H2, H3. lia.
Qed.

Lemma split_combine_load (m : memory) (a : addr) (n : nat) :
  le_split n (le_combine (load m a n)) = load m a n.
Proof.
  pose proof (split_le_combine (load m a n)) as H.
  now rewrite length_load in H.
Qed.

(** The wire image of the header [Unpack] builds is the bytes it was
    built from. *)
Lemma wire_decoded (this : Header.t) (buf : addr) (w : Header.World) :
  buf <> NULL ->
  let h := snd (fst (Header.Unpack this buf w)) in
  Header.wire h
  = load (Header.mem w) buf (Z.to_nat (13 + size (Header.pUuid h))).
Proof.
  intros Hbuf h. subst h. rewrite (Unpack_nonnull this buf w Hbuf). cbn [fst snd].
  set (m := Header.mem w). set (L := le_combine (load m (buf + 2) 8)).
  pose proof (length_field_range m (buf + 2)) as HL. fold L in HL.
  unfold Header.wire. cbn [Header.version Header.pUuid Header.type Header.flags].
  rewrite size_decoded by lia. rewrite list_byte_of_string_of_list_byte.
  rewrite !split_combine_load. unfold L at 1. rewrite split_combine_load.
  replace (Z.to_nat (13 + L)) with (2 + (8 + (Z.to_nat L + (1 + 2))))%nat by lia.
  rewrite !load_app. repeat f_equal; lia.
Qed.

(** X2: Packing the header [Unpack] has read, when that header is valid and
    its length fits an [int], writes back the bytes it was read from:
    the destination then holds the same [13 + L] bytes as the source,
    and [Pack] returns what [Unpack] returned. *)
Theorem Unpack_then_Pack (this : Header.t) (buf buf' : addr) (w w' : Header.World) :
  buf <> NULL -> buf' <> NULL ->
  let h := snd (fst (Header.Unpack this buf w)) in
  Header.valid h ->
  13 + size (Header.pUuid h) <= INT_MAX ->
  load (Header.mem (snd (Header.Pack h buf' w'))) buf'
       (Z.to_nat (13 + size (Header.pUuid h)))
  = load (Header.mem w) buf (Z.to_nat (13 + size (Header.pUuid h))) /\
  fst (Header.Pack h buf' w') = fst (fst (Header.Unpack this buf w)).
Proof.
  intros Hbuf Hbuf' h Hvalid Hfit.
  pose proof (Unpack_wf this buf w Hbuf) as Hwf. fold h in Hwf.
  destruct (Pack_valid h buf' w' Hwf Hvalid Hbuf') as (Hret & _ & Hmem).
  pose proof (wire_decoded this buf w Hbuf) as Hwire. cbv zeta in Hwire.
  fold h in Hwire. split.
  - rewrite <- Hwire. apply (load_segment _ (Header.mem w') buf' [] _ []).
    + intros x. rewrite Hmem. now rewrite List.app_nil_r.
    + simpl. lia.
    + pose proof (length_wire h). pose proof (size_nonneg (Header.pUuid h)). lia.
  - rewrite Hret. unfold h. now rewrite (Unpack_nonnull this buf w Hbuf).
Qed.

Lemma Unpack_then_Pack_witness :
  let w := snd (Header.Pack Sample.abc_header 4096 (Sample.filled Byte.xff)) in
  let h := snd (fst (Header.Unpack (Header.mk 0 "" 0 0) 4096 w)) in
  load (Header.mem (snd (Header.Pack h 8192 (Sample.filled Byte.x00)))) 8192
       (Z.to_nat (13 + size (Header.pUuid h)))
  = load (Header.mem w) 4096 (Z.to_nat (13 + size (Header.pUuid h))) /\
  fst (Header.Pack h 8192 (Sample.filled Byte.x00))
  = fst (fst (Header.Unpack (Header.mk 0 "" 0 0) 4096 w)).
Proof.
  apply (Unpack_then_Pack (Header.mk 0 "" 0 0) 4096 8192
           (snd (Header.Pack Sample.abc_header 4096 (Sample.filled Byte.xff)))
           (Sample.filled Byte.x00)).
  - unfold NULL. lia.
  - unfold NULL. lia.
  - vm_compute. repeat split; discriminate.
  - vm_compute. discriminate.
Defined.

Lemma Unpack_local (this : Header.t) (buf : addr) (w w' : Header.World) :
  buf <> NULL ->
  (forall x : addr,
      buf <= x < buf + 13 + le_combine (load (Header.mem w) (buf + 2) 8) ->
      Header.mem w' x = Header.mem w x) ->
  fst (Header.Unpack this buf w') = fst (Header.Unpack this buf w).
Proof.
  intros Hbuf Hsame.
  rewrite (Unpack_nonnull this buf w Hbuf), (Unpack_nonnull this buf w' Hbuf).
  cbn [fst]. set (m := Header.mem w) in *. set (m' := Header.mem w') in *.
  pose proof (length_field_range m (buf + 2)) as HL.
  assert (HLeq : le_combine (load m' (buf + 2) 8) = le_combine (load m (buf + 2) 8)).
  { f_equal. apply load_ext. intros x Hx. apply Hsame. lia. }
  rewrite HLeq. set (L := le_combine (load m (buf + 2) 8)) in *.
  assert (H2 : load m' buf 2 = load m buf 2)
    by (apply load_ext; intros x Hx; apply Hsame; lia).
  assert (Hu : load m' (buf + 2 + 8) (Z.to_nat L) = load m (buf + 2 + 8) (Z.to_nat L))
    by (apply load_ext; intros x Hx; apply Hsame; lia).
  assert (Ht : load m' (buf + 2 + 8 + L) 1 = load m (buf + 2 + 8 + L) 1)
    by (apply load_ext; intros x Hx; apply Hsame; lia).
  assert (Hf : load m' (buf + 2 + 8 + L + 1) 2 = load m (buf + 2 + 8 + L + 1) 2)
    by (apply load_ext; intros x Hx; apply Hsame; lia).
  now rewrite H2, Hu, Ht, Hf.
Qed.

(** X3: [Unpack] reads the [13 + L] bytes of the encoded header and nothing
    else: on two memories that agree on these bytes, [L] being the
    uuid-length field of the first, it builds the same header and
    returns the same length. *)
Theorem Unpack_reads_header_only (this : Header.t) (buf : addr)
    (w w' : Header.World) :
  buf <> NULL ->
  (forall x : addr,
      buf <= x < buf + 13 + le_combine (load (Header.mem w) (buf + 2) 8) ->
      Header.mem w' x = Header.mem w x) ->
  fst (Header.Unpack this buf w') = fst (Header.Unpack this buf w).
Proof. exact (Unpack_local this buf w w'). Qed.

Lemma Unpack_reads_header_only_witness :
  let w := snd (Header.Pack Sample.abc_header 4096 (Sample.filled Byte.xff)) in
  let w' := snd (Header.Pack Sample.abc_header 4096 (Sample.filled Byte.x00)) in
  fst (Header.Unpack (Header.mk 0 "" 0 0) 4096 w')
  = fst (Header.Unpack (Header.mk 0 "" 0 0) 4096 w).
Proof.
  apply (Unpack_reads_header_only (Header.mk 0 "" 0 0) 4096
           (snd (Header.Pack Sample.abc_header 4096 (Sample.filled Byte.xff)))
           (snd (Header.Pack Sample.abc_header 4096 (Sample.filled Byte.x00)))).
  - unfold NULL. lia.
  - intros x Hx.
    assert (HL : le_combine
                   (load (Header.mem
                            (snd (Header.Pack Sample.abc_header 4096
                                    (Sample.filled Byte.xff)))) (4096 + 2) 8) = 3)
      by (vm_compute; reflexivity).
    rewrite HL in Hx.
    destruct (Pack_valid Sample.abc_header 4096 (Sample.filled Byte.xff)
                PacketProperties.abc_header_wf PacketProperties.abc_header_valid
                PacketProperties.buffer_4096_nonnull) as (_ & _ & H1).
    destruct (Pack_valid Sample.abc_header 4096 (Sample.filled Byte.x00)
                PacketProperties.abc_header_wf PacketProperties.abc_header_valid
                PacketProperties.buffer_4096_nonnull) as (_ & _ & H2).
    rewrite H1, H2.
    replace x with (4096 + Z.of_nat (Z.to_nat (x - 4096))) by lia.
    rewrite (memcpy_inside _ _ _ _ Byte.x00) by (simpl; lia).
    rewrite (memcpy_inside _ _ _ _ Byte.x00) by (simpl; lia).
    reflexivity.
Defined.

(** *** Subscription messages *)

(** [Unpack] on a memory that holds the wire image of [h] at the
    buffer, whatever follows it. *)
Lemma Unpack_wire_prefix (h this : Header.t) (buf : addr) (w : Header.World)
    (base : memory) (rest : list byte) :
  Header.wf h -> buf <> NULL ->
  (forall x, Header.mem w x = memcpy base buf (Header.wire h ++ rest) x) ->
  Header.Unpack this buf w = (to_size_t (Header.HeaderLength h), h, w).
Proof.
  intros (Hv & Hs & Ht & Hf) Hbuf Hm.
  pose proof (size_nonneg (Header.pUuid h)) as Hs0.
  rewrite (Unpack_nonnull this buf w Hbuf). destruct h as [v u t f].
  cbn [Header.version Header.pUuid Header.type Header.flags] in *.
  unfold Header.wire in Hm.
  cbn [Header.version Header.pUuid Header.type Header.flags] in Hm.
  assert (HL : le_combine (load (Header.mem w) (buf + 2) 8) = size u).
  { rewrite (load_segment _ base buf (le_split 2 v) (le_split 8 (size u))
               (list_byte_of_string u ++ le_split 1 t ++ le_split 2 f ++ rest)).
    - rewrite le_combine_split. apply Z.mod_small. simpl. lia.
    - intros x. rewrite Hm. now rewrite <- !List.app_assoc.
    - segment_lengths.
    - now rewrite length_le_split. }
  cbv zeta. rewrite HL.
  assert (H1 : le_combine (load (Header.mem w) buf 2) = v).
  { rewrite (load_segment _ base buf [] (le_split 2 v)
               (le_split 8 (size u) ++ list_byte_of_string u ++ le_split 1 t
                ++ le_split 2 f ++ rest)).
    - rewrite le_combine_split. apply Z.mod_small. simpl. lia.
    - intros x. rewrite Hm. now rewrite <- !List.app_assoc.
    - simpl. lia.
    - now rewrite length_le_split. }
  assert (H2 : string_of_list_byte (load (Header.mem w) (buf + 2 + 8) (Z.to_nat (size u)))
               = u).
  { rewrite (load_segment _ base buf (le_split 2 v ++ le_split 8 (size u))
               (list_byte_of_string u) (le_split 1 t ++ le_split 2 f ++ rest)).
    - apply string_of_list_byte_of_string.
    - intros x. rewrite Hm. now rewrite <- !List.app_assoc.
    - segment_lengths.
    - rewrite length_list_byte_of_string. unfold size. now rewrite Nat2Z.id. }
  assert (H3 : le_combine (load (Header.mem w) (buf + 2 + 8 + size u) 1) = t).
  { rewrite (load_segment _ base buf
               (le_split 2 v ++ le_split 8 (size u) ++ list_byte_of_string u)
               (le_split 1 t) (le_split 2 f ++ rest)).
    - rewrite le_combine_split. apply Z.mod_small. simpl. lia.
    - intros x. rewrite Hm. now rewrite <- !List.app_assoc.
    - segment_lengths.
    - now rewrite length_le_split. }
  assert (H4 : le_combine (load (Header.mem w) (buf + 2 + 8 + size u + 1) 2) = f).
  { rewrite (load_segment _ base buf
               (le_split 2 v ++ le_split 8 (size u) ++ list_byte_of_string u
                ++ le_split 1 t)
               (le_split 2 f) rest).
    - rewrite le_combine_split. apply Z.mod_small. simpl. lia.
    - intros x. rewrite Hm. now rewrite <- !List.app_assoc.
    - segment_lengths.
    - now rewrite length_le_split. }
  now rewrite H1, H2, H3, H4.
Qed.

(** [SubscriptionMsg::Pack] on a valid header, a non-empty topic and a
    non-null buffer. *)
Lemma Subscription_Pack_valid (s : SubscriptionMsg.t) (buf : addr) (w : Header.World) :
  Header.wf (SubscriptionMsg.header s) -> Header.valid (SubscriptionMsg.header s) ->
  buf <> NULL ->
  13 + size (Header.pUuid (SubscriptionMsg.header s)) <= INT_MAX ->
  SubscriptionMsg.topic s <> "" -> size (SubscriptionMsg.topic s) < 2 ^ 64 ->
  fst (SubscriptionMsg.Pack s buf w) = SubscriptionMsg.MsgLength s /\
  Header.cerr (snd (SubscriptionMsg.Pack s buf w)) = Header.cerr w /\
  forall x, Header.mem (snd (SubscriptionMsg.Pack s buf w)) x
            = memcpy (Header.mem w) buf (Layout.subscription_wire s) x.
Proof.
  intros Hwf Hvalid Hbuf Hfit Htopic Hsize.
  destruct (Pack_valid (SubscriptionMsg.header s) buf w Hwf Hvalid Hbuf)
    as (Hret & Hcerr & Hmem).
  pose proof (HeaderLength_fits _ Hfit) as Hlen.
  pose proof (size_nonneg (Header.pUuid (SubscriptionMsg.header s))) as Hs0.
  pose proof (size_nonneg (SubscriptionMsg.topic s)) as Ht0.
  rewrite to_size_t_small in Hret by (unfold INT_MAX in Hfit; lia).
  unfold SubscriptionMsg.Pack.
  destruct (Header.Pack (SubscriptionMsg.header s) buf w) as [n w1].
  cbn [fst snd] in Hret, Hcerr, Hmem. subst n.
  replace (Header.HeaderLength (SubscriptionMsg.header s) =? 0) with false
    by (symmetry; apply Z.eqb_neq; lia).
  apply String.eqb_neq in Htopic. rewrite Htopic.
  cbn [fst snd Header.set_mem Header.mem Header.cerr].
  split; [reflexivity|]. split; [exact Hcerr|]. intros x.
  assert (HT : to_uint64 (size (SubscriptionMsg.topic s)) = size (SubscriptionMsg.topic s))
    by (apply Z.mod_small; lia).
  rewrite HT.
  rewrite firstn_all2
    by (rewrite length_list_byte_of_string; unfold size; lia).
  unfold Layout.subscription_wire. rewrite !List.app_assoc.
  eapply memcpy_chain.
  - intros y. eapply memcpy_chain; [exact Hmem|].
    pose proof (length_wire (SubscriptionMsg.header s)). lia.
  - pose proof (length_wire (SubscriptionMsg.header s)).
    rewrite List.length_app, length_le_split. lia.
Qed.

(** X4: A subscription message with a valid header and a non-empty topic
    survives the wire: after [Pack], [Header::Unpack] at the start of
    the buffer gives back the header and [SubscriptionMsg::Unpack] at
    the offset it returned gives back the topic, leaving the receiving
    object's header alone; [Pack] returns
    [header length + 8 + len(topic)], which is what the two [Unpack]s
    return together. *)
Theorem Subscription_roundtrip (s this : SubscriptionMsg.t) (thisHeader : Header.t)
    (buf : addr) (w : Header.World) :
  Header.wf (SubscriptionMsg.header s) -> Header.valid (SubscriptionMsg.header s) ->
  0 < buf ->
  13 + size (Header.pUuid (SubscriptionMsg.header s)) <= INT_MAX ->
  SubscriptionMsg.topic s <> "" -> size (SubscriptionMsg.topic s) < 2 ^ 63 ->
  let packed := SubscriptionMsg.Pack s buf w in
  let hdr := Header.Unpack thisHeader buf (snd packed) in
  let body := SubscriptionMsg.Unpack this (buf + fst (fst hdr)) (snd packed) in
  snd (fst hdr) = SubscriptionMsg.header s /\
  SubscriptionMsg.topic (snd (fst body)) = SubscriptionMsg.topic s /\
  SubscriptionMsg.header (snd (fst body)) = SubscriptionMsg.header this /\
  fst packed
  = Header.HeaderLength (SubscriptionMsg.header s) + 8 + size (SubscriptionMsg.topic s) /\
  fst (fst hdr) + fst (fst body) = fst packed.
Proof.
  intros Hwf Hvalid Hbuf Hfit Htopic Hsize packed hdr body.
  assert (Hnn : buf <> NULL) by (unfold NULL; lia).
  assert (Hsize' : size (SubscriptionMsg.topic s) < 2 ^ 64) by lia.
  destruct (Subscription_Pack_valid s buf w Hwf Hvalid Hnn Hfit Htopic Hsize')
    as (Hret & _ & Hmem).
  fold packed in Hret, Hmem.
  pose proof (HeaderLength_fits _ Hfit) as Hlen.
  pose proof (size_nonneg (Header.pUuid (SubscriptionMsg.header s))) as Hs0.
  pose proof (size_nonneg (SubscriptionMsg.topic s)) as Ht0.
  pose proof (length_wire (SubscriptionMsg.header s)) as Hw.
  assert (Hhdr : hdr = (Header.HeaderLength (SubscriptionMsg.header s),
                        SubscriptionMsg.header s, snd packed)).
  { unfold hdr.
    rewrite (Unpack_wire_prefix (SubscriptionMsg.header s) thisHeader buf (snd packed)
               (Header.mem w)
               (le_split 8 (size (SubscriptionMsg.topic s))
                ++ list_byte_of_string (SubscriptionMsg.topic s)) Hwf Hnn Hmem).
    now rewrite to_size_t_small by (unfold INT_MAX in Hfit; lia). }
  assert (Hml : SubscriptionMsg.MsgLength s
                = Header.HeaderLength (SubscriptionMsg.header s) + 8
                  + size (SubscriptionMsg.topic s)).
  { unfold SubscriptionMsg.MsgLength. unfold INT_MAX in Hfit.
    rewrite (to_size_t_small (Header.HeaderLength _)) by lia.
    apply to_size_t_small. lia. }
  assert (Hbody : body = (8 + size (SubscriptionMsg.topic s),
                          SubscriptionMsg.mk (SubscriptionMsg.header this)
                                             (SubscriptionMsg.topic s),
                          snd packed)).
  { unfold body. rewrite Hhdr. cbn [fst snd]. unfold SubscriptionMsg.Unpack.
    rewrite nonnull by (unfold NULL; lia).
    assert (HT : le_combine (load (Header.mem (snd packed))
                               (buf + Header.HeaderLength (SubscriptionMsg.header s)) 8)
                 = size (SubscriptionMsg.topic s)).
    { rewrite (load_segment _ (Header.mem w) buf (Header.wire (SubscriptionMsg.header s))
                 (le_split 8 (size (SubscriptionMsg.topic s)))
                 (list_byte_of_string (SubscriptionMsg.topic s))).
      - rewrite le_combine_split. apply Z.mod_small. simpl. lia.
      - exact Hmem.
      - lia.
      - now rewrite length_le_split. }
    cbv zeta. rewrite HT.
    rewrite (load_segment _ (Header.mem w) buf
               (Header.wire (SubscriptionMsg.header s)
                ++ le_split 8 (size (SubscriptionMsg.topic s)))
               (list_byte_of_string (SubscriptionMsg.topic s)) []).
    - rewrite string_of_list_byte_of_string.
      now rewrite to_size_t_small by lia.
    - intros x. rewrite Hmem. unfold Layout.subscription_wire.
      now rewrite List.app_nil_r, <- !List.app_assoc.
    - rewrite List.length_app, length_le_split. lia.
    - rewrite length_list_byte_of_string. unfold size. now rewrite Nat2Z.id. }
  rewrite Hhdr, Hbody, Hret, Hml. cbn [fst snd SubscriptionMsg.topic
    SubscriptionMsg.header]. repeat apply conj; try reflexivity. lia.
Qed.

Lemma chatter_topic_size : size (SubscriptionMsg.topic SampleRuntime.chatter) = 8.
Proof. reflexivity. Qed.

Lemma Subscription_roundtrip_witness :
  let s := SampleRuntime.chatter in
  let this := SubscriptionMsg.mk (Header.mk 0 "" 0 0) "" in
  let packed := SubscriptionMsg.Pack s 4096 (Sample.filled Byte.xff) in
  let hdr := Header.Unpack (Header.mk 0 "" 0 0) 4096 (snd packed) in
  let body := SubscriptionMsg.Unpack this (4096 + fst (fst hdr)) (snd packed) in
  snd (fst hdr) = SubscriptionMsg.header s /\
  SubscriptionMsg.topic (snd (fst body)) = SubscriptionMsg.topic s /\
  SubscriptionMsg.header (snd (fst body)) = SubscriptionMsg.header this /\
  fst packed
  = Header.HeaderLength (SubscriptionMsg.header s) + 8 + size (SubscriptionMsg.topic s) /\
  fst (fst hdr) + fst (fst body) = fst packed.
Proof.
  apply (Subscription_roundtrip SampleRuntime.chatter
           (SubscriptionMsg.mk (Header.mk 0 "" 0 0) "") (Header.mk 0 "" 0 0) 4096
           (Sample.filled Byte.xff)).
  - exact PacketProperties.abc_header_wf.
  - exact PacketProperties.abc_header_valid.
  - lia.
  - exact PacketProperties.abc_header_fits.
  - discriminate.
  - rewrite chatter_topic_size. lia.
Defined.

(** X5: For a header whose length fits an [int] and a topic shorter than
    [2^63], [SubscriptionMsg::Pack] returns 0 exactly when the header
    is not valid for packing, the buffer is null or the topic is
    empty. *)
Theorem Subscription_Pack_returns_0_iff (s : SubscriptionMsg.t) (buf : addr)
    (w : Header.World) :
  13 + size (Header.pUuid (SubscriptionMsg.header s)) <= INT_MAX ->
  size (SubscriptionMsg.topic s) < 2 ^ 63 ->
  (fst (SubscriptionMsg.Pack s buf w) = 0
   <-> ~ Header.valid (SubscriptionMsg.header s) \/ buf = NULL
       \/ SubscriptionMsg.topic s = "").
Proof.
  intros Hfit Hsize. pose proof (HeaderLength_fits _ Hfit) as Hlen.
  pose proof (size_nonneg (Header.pUuid (SubscriptionMsg.header s))) as Hs0.
  pose proof (size_nonneg (SubscriptionMsg.topic s)) as Ht0.
  assert (Hsmall : to_size_t (Header.HeaderLength (SubscriptionMsg.header s))
                   = Header.HeaderLength (SubscriptionMsg.header s))
    by (apply to_size_t_small; unfold INT_MAX in Hfit; lia).
  unfold SubscriptionMsg.Pack, Header.Pack.
  destruct ((Header.version (SubscriptionMsg.header s) =? 0)
            || String.eqb (Header.pUuid (SubscriptionMsg.header s)) ""
            || (Header.type (SubscriptionMsg.header s) =? Header.Uninitialized)) eqn:G.
  - cbn. split; [|reflexivity]. intros _. left. intros V.
    rewrite (guard_valid _ V) in G. discriminate.
  - destruct (buf =? NULL) eqn:B.
    + cbn. apply Z.eqb_eq in B. split; [|reflexivity]. intros _. right. now left.
    + apply Z.eqb_neq in B. rewrite Hsmall.
      replace (Header.HeaderLength (SubscriptionMsg.header s) =? 0) with false
        by (symmetry; apply Z.eqb_neq; lia).
      destruct (String.eqb_spec (SubscriptionMsg.topic s) "") as [E|E].
      * cbn. split; [|reflexivity]. intros _. right. now right.
      * cbn [fst]. unfold SubscriptionMsg.MsgLength. rewrite Hsmall.
        rewrite to_size_t_small by (unfold INT_MAX in Hfit; lia). split.
        -- intros H0. lia.
        -- intros [Hn|[Hn|Hn]]; [exfalso; apply Hn, guard_off_valid, G
                                  |contradiction|contradiction].
Qed.

Lemma Subscription_Pack_returns_0_iff_witness :
  fst (SubscriptionMsg.Pack SampleRuntime.chatter 4096 (Sample.filled Byte.xff)) = 0
  <-> ~ Header.valid (SubscriptionMsg.header SampleRuntime.chatter) \/ 4096 = NULL
      \/ SubscriptionMsg.topic SampleRuntime.chatter = "".
Proof.
  apply (Subscription_Pack_returns_0_iff SampleRuntime.chatter 4096
           (Sample.filled Byte.xff)).
  - exact PacketProperties.abc_header_fits.
  - rewrite chatter_topic_size. lia.
Defined.

(** X6: [SubscriptionMsg::Pack] packs the header before it looks at the
    topic: with a header that is valid for packing and whose length
    [13 + len(process_uuid)] fits an [int] (at most [INT_MAX]), a
    non-null buffer and an empty topic it returns 0 and reports the
    empty topic on [std::cerr], but the buffer already holds the
    header's wire image. *)
Theorem Subscription_Pack_empty_topic (s : SubscriptionMsg.t) (buf : addr)
    (w : Header.World) :
  Header.wf (SubscriptionMsg.header s) -> Header.valid (SubscriptionMsg.header s) ->
  buf <> NULL ->
  13 + size (Header.pUuid (SubscriptionMsg.header s)) <= INT_MAX ->
  SubscriptionMsg.topic s = "" ->
  let w' := snd (SubscriptionMsg.Pack s buf w) in
  fst (SubscriptionMsg.Pack s buf w) = 0 /\
  Header.cerr w'
  = (Header.cerr w
     ++ [Header.Text "SubscriptionMsg::Pack() error: You're trying to pack a ";
         Header.Text "message with an empty topic"; Header.Endl])%list /\
  load (Header.mem w') buf (Z.to_nat (Header.HeaderLength (SubscriptionMsg.header s)))
  = Header.wire (SubscriptionMsg.header s).
Proof.
  intros Hwf Hvalid Hbuf Hfit Htopic w'.
  destruct (Pack_valid (SubscriptionMsg.header s) buf w Hwf Hvalid Hbuf)
    as (Hret & Hcerr & Hmem).
  pose proof (HeaderLength_fits _ Hfit) as Hlen.
  pose proof (size_nonneg (Header.pUuid (SubscriptionMsg.header s))) as Hs0.
  pose proof (length_wire (SubscriptionMsg.header s)) as Hw.
  rewrite to_size_t_small in Hret by (unfold INT_MAX in Hfit; lia).
  subst w'. unfold SubscriptionMsg.Pack.
  destruct (Header.Pack (SubscriptionMsg.header s) buf w) as [n w1].
  cbn [fst snd] in Hret, Hcerr, Hmem. subst n.
  replace (Header.HeaderLength (SubscriptionMsg.header s) =? 0) with false
    by (symmetry; apply Z.eqb_neq; lia).
  rewrite Htopic. cbn [String.eqb fst snd Header.emit Header.mem Header.cerr].
  split; [reflexivity|]. split; [now rewrite Hcerr|].
  apply (load_segment _ (Header.mem w) buf [] _ []).
  - intros x. rewrite Hmem. now rewrite List.app_nil_r.
  - simpl. lia.
  - lia.
Qed.

Lemma Subscription_Pack_empty_topic_witness :
  let s := SubscriptionMsg.mk Sample.abc_header "" in
  let w := Sample.filled Byte.xff in
  let w' := snd (SubscriptionMsg.Pack s 4096 w) in
  fst (SubscriptionMsg.Pack s 4096 w) = 0 /\
  Header.cerr w'
  = (Header.cerr w
     ++ [Header.Text "SubscriptionMsg::Pack() error: You're trying to pack a ";
         Header.Text "message with an empty topic"; Header.Endl])%list /\
  load (Header.mem w') 4096 (Z.to_nat (Header.HeaderLength (SubscriptionMsg.header s)))
  = Header.wire (SubscriptionMsg.header s).
Proof.
  apply (Subscription_Pack_empty_topic (SubscriptionMsg.mk Sample.abc_header "") 4096
           (Sample.filled Byte.xff)).
  - exact PacketProperties.abc_header_wf.
  - exact PacketProperties.abc_header_valid.
  - exact PacketProperties.buffer_4096_nonnull.
  - exact PacketProperties.abc_header_fits.
  - reflexivity.
Defined.

Lemma length_field_of_wire (h : Header.t) (buf : addr) (w : Header.World)
    (base : memory) (rest : list byte) :
  Header.wf h ->
  (forall x, Header.mem w x = memcpy base buf (Header.wire h ++ rest) x) ->
  le_combine (load (Header.mem w) (buf + 2) 8) = size (Header.pUuid h).
Proof.
  intros (_ & Hs & _) Hm. pose proof (size_nonneg (Header.pUuid h)) as Hs0.
  rewrite (load_segment _ base buf (le_split 2 (Header.version h))
             (le_split 8 (size (Header.pUuid h)))
             (list_byte_of_string (Header.pUuid h) ++ le_split 1 (Header.type h)
              ++ le_split 2 (Header.flags h) ++ rest)).
  - rewrite le_combine_split. apply Z.mod_small. simpl. lia.
  - intros x. rewrite Hm. unfold Header.wire. now rewrite <- !List.app_assoc.
  - segment_lengths.
  - now rewrite length_le_split.
Qed.

(** *** Advertise messages *)

Section Advertise.
Context {Publisher : Type} {codec : PublisherCodec Publisher}.

(** X7: [AdvertiseMessage::Pack] asks the publisher to pack itself right
    after the header, and only when the header was packed: for a header
    whose length fits an [int] and a message of non-zero length, it
    returns 0 exactly when the header is not valid for packing, the
    buffer is null, or the publisher's [Pack], called at the buffer
    plus the header length on the memory that holds the header,
    returns 0; and when the header's [Pack] fails, the result is that
    of the header's [Pack] alone. *)
Theorem Advertise_Pack_returns_0_iff (a : AdvertiseMessage.t Publisher) (buf : addr)
    (w : Header.World) :
  let h := AdvertiseMessage.header a in
  let w1 := snd (Header.Pack h buf w) in
  13 + size (Header.pUuid h) <= INT_MAX ->
  AdvertiseMessage.MsgLength a <> 0 ->
  (fst (AdvertiseMessage.Pack a buf w) = 0
   <-> ~ Header.valid h \/ buf = NULL
       \/ fst (Publisher_Pack (AdvertiseMessage.publisher a)
                 (buf + Header.HeaderLength h) w1) = 0) /\
  (~ Header.valid h \/ buf = NULL -> AdvertiseMessage.Pack a buf w = (0, w1)).
Proof.
  intros h w1 Hfit Hml. pose proof (HeaderLength_fits h Hfit) as Hlen.
  pose proof (size_nonneg (Header.pUuid h)) as Hs0.
  assert (Hsmall : to_size_t (Header.HeaderLength h) = Header.HeaderLength h)
    by (apply to_size_t_small; unfold INT_MAX in Hfit; lia).
  assert (Hcases : (~ Header.valid h \/ buf = NULL) /\ fst (Header.Pack h buf w) = 0
                   \/ (Header.valid h /\ buf <> NULL)
                      /\ fst (Header.Pack h buf w) = Header.HeaderLength h).
  { unfold Header.Pack.
    destruct ((Header.version h =? 0) || String.eqb (Header.pUuid h) ""
              || (Header.type h =? Header.Uninitialized)) eqn:G.
    - left. split; [|reflexivity]. left. intros V.
      rewrite (guard_valid h V) in G. discriminate.
    - destruct (buf =? NULL) eqn:B.
      + left. apply Z.eqb_eq in B. split; [now right|reflexivity].
      + right. apply Z.eqb_neq in B. cbn [fst]. rewrite Hsmall.
        split; [|reflexivity]. split; [now apply guard_off_valid|exact B]. }
  unfold AdvertiseMessage.Pack. fold h. subst w1.
  destruct (Header.Pack h buf w) as [n w1]. cbn [fst snd] in *.
  destruct Hcases as [[Hbad Hn]|[[Hv Hb] Hn]]; subst n.
  - cbn. split; [|reflexivity]. split; [|reflexivity]. intros _.
    destruct Hbad; [now left|right; now left].
  - replace (Header.HeaderLength h =? 0) with false
      by (symmetry; apply Z.eqb_neq; lia).
    split; [|intros [Hn|Hn]; contradiction].
    destruct (Publisher_Pack (AdvertiseMessage.publisher a)
                (buf + Header.HeaderLength h) w1) as [plen w2].
    cbn [fst]. destruct (Z.eqb_spec plen 0) as [E|E]; cbn [fst].
    + split; [|reflexivity]. intros _. right. now right.
    + split; [intros H0; contradiction|].
      intros [Hn|[Hn|Hn]]; contradiction.
Qed.

(** X8: An advertise message survives the wire when its publisher does:
    for a header that is valid for packing and whose length
    [13 + len(process_uuid)] fits an [int] (at most [INT_MAX]) and a
    non-null buffer, if the publisher's [Pack], called right after the
    header, succeeds and writes nothing below its own buffer, and the
    publisher's [Unpack] reads the publisher back from there, then
    after [AdvertiseMessage::Pack], [Header::Unpack] at the start of
    the buffer gives back the header and [AdvertiseMessage::Unpack] at
    the offset it returned gives back the publisher and returns the
    publisher's length, the receiving object's header being left
    alone. *)
Theorem Advertise_roundtrip (a this : AdvertiseMessage.t Publisher)
    (thisHeader : Header.t) (buf : addr) (w : Header.World) :
  let h := AdvertiseMessage.header a in
  let p := AdvertiseMessage.publisher a in
  let w1 := snd (Header.Pack h buf w) in
  let at_body := buf + Header.HeaderLength h in
  let w2 := snd (Publisher_Pack p at_body w1) in
  let read := Publisher_Unpack (AdvertiseMessage.publisher this) at_body w2 in
  Header.wf h -> Header.valid h -> buf <> NULL ->
  13 + size (Header.pUuid h) <= INT_MAX ->
  fst (Publisher_Pack p at_body w1) <> 0 ->
  (forall x : addr, x < at_body -> Header.mem w2 x = Header.mem w1 x) ->
  fst (fst read) <> 0 -> snd (fst read) = p ->
  let packed := AdvertiseMessage.Pack a buf w in
  let hdr := Header.Unpack thisHeader buf (snd packed) in
  let body := AdvertiseMessage.Unpack this (buf + fst (fst hdr)) (snd packed) in
  fst packed = AdvertiseMessage.MsgLength a /\
  snd (fst hdr) = h /\
  AdvertiseMessage.publisher (snd (fst body)) = p /\
  AdvertiseMessage.header (snd (fst body)) = AdvertiseMessage.header this /\
  fst (fst body) = to_size_t (Publisher_MsgLength p).
Proof.
  intros h p w1 at_body w2 read Hwf Hvalid Hbuf Hfit Hpack Hframe Hread Hp
         packed hdr body.
  destruct (Pack_valid h buf w Hwf Hvalid Hbuf) as (Hret & _ & Hmem).
  fold w1 in Hmem.
  pose proof (HeaderLength_fits h Hfit) as Hlen.
  pose proof (size_nonneg (Header.pUuid h)) as Hs0.
  rewrite to_size_t_small in Hret by (unfold INT_MAX in Hfit; lia).
  assert (Hpacked : packed = (AdvertiseMessage.MsgLength a, w2)).
  { unfold packed, AdvertiseMessage.Pack. fold h p. subst w2 at_body w1.
    destruct (Header.Pack h buf w) as [n w1]. cbn [fst snd] in *. subst n.
    replace (Header.HeaderLength h =? 0) with false
      by (symmetry; apply Z.eqb_neq; lia).
    destruct (Publisher_Pack p (buf + Header.HeaderLength h) w1) as [plen w2].
    cbn [fst snd] in *. apply Z.eqb_neq in Hpack. now rewrite Hpack. }
  assert (Hhdr : fst hdr = (Header.HeaderLength h, h)).
  { unfold hdr. rewrite Hpacked. cbn [snd].
    assert (H1 : Header.Unpack thisHeader buf w1
                 = (to_size_t (Header.HeaderLength h), h, w1)).
    { apply (Unpack_wire_prefix h thisHeader buf w1 (Header.mem w) [] Hwf Hbuf).
      intros x. rewrite Hmem. now rewrite List.app_nil_r. }
    rewrite (Unpack_local thisHeader buf w1 w2 Hbuf).
    - rewrite H1. cbn [fst]. f_equal.
      apply to_size_t_small. unfold INT_MAX in Hfit. lia.
    - intros x Hx. apply Hframe. unfold at_body.
      assert (HL : le_combine (load (Header.mem w1) (buf + 2) 8) = size (Header.pUuid h)).
      { apply (length_field_of_wire h buf w1 (Header.mem w) [] Hwf).
        intros y. rewrite Hmem. now rewrite List.app_nil_r. }
      rewrite HL in Hx. lia. }
  unfold body. rewrite Hhdr, Hpacked. cbn [fst snd]. fold at_body.
  unfold AdvertiseMessage.Unpack. fold read.
  destruct read as [[plen q] w3]. cbn [fst snd] in Hread, Hp. subst q.
  apply Z.eqb_neq in Hread. rewrite Hread.
  cbn [fst snd AdvertiseMessage.publisher AdvertiseMessage.header].
  repeat apply conj; reflexivity.
Qed.

End Advertise.

Lemma sample_publisher_Pack_frame (p : Sample.publisher) (a : addr)
    (w : Header.World) (x : addr) :
  x < a -> Header.mem (snd (Sample.publisher_Pack p a w)) x = Header.mem w x.
Proof.
  intros Hx. unfold Sample.publisher_Pack.
  destruct (a =? NULL); cbn [snd Header.emit Header.set_mem Header.mem];
    [reflexivity|].
  rewrite !memcpy_outside by lia. reflexivity.
Qed.

#[local] Existing Instance Sample.publisher_codec.

Lemma Advertise_Pack_returns_0_iff_witness :
  let a := SampleRuntime.advert in
  let w := Sample.filled Byte.xff in
  let h := AdvertiseMessage.header a in
  let w1 := snd (Header.Pack h 4096 w) in
  (fst (AdvertiseMessage.Pack a 4096 w) = 0
   <-> ~ Header.valid h \/ 4096 = NULL
       \/ fst (Publisher_Pack (AdvertiseMessage.publisher a)
                 (4096 + Header.HeaderLength h) w1) = 0) /\
  (~ Header.valid h \/ 4096 = NULL -> AdvertiseMessage.Pack a 4096 w = (0, w1)).
Proof.
  apply (Advertise_Pack_returns_0_iff SampleRuntime.advert 4096
           (Sample.filled Byte.xff)).
  - exact PacketProperties.abc_header_fits.
  - vm_compute. discriminate.
Defined.

Lemma Advertise_roundtrip_witness :
  let a := SampleRuntime.advert in
  let this := AdvertiseMessage.mk (Header.mk 0 "" 0 0) ("" : Sample.publisher) in
  let packed := AdvertiseMessage.Pack a 4096 (Sample.filled Byte.xff) in
  let hdr := Header.Unpack (Header.mk 0 "" 0 0) 4096 (snd packed) in
  let body := AdvertiseMessage.Unpack this (4096 + fst (fst hdr)) (snd packed) in
  fst packed = AdvertiseMessage.MsgLength a /\
  snd (fst hdr) = AdvertiseMessage.header a /\
  AdvertiseMessage.publisher (snd (fst body)) = AdvertiseMessage.publisher a /\
  AdvertiseMessage.header (snd (fst body)) = AdvertiseMessage.header this /\
  fst (fst body) = to_size_t (Publisher_MsgLength (AdvertiseMessage.publisher a)).
Proof.
  apply (Advertise_roundtrip SampleRuntime.advert
           (AdvertiseMessage.mk (Header.mk 0 "" 0 0) ("" : Sample.publisher))
           (Header.mk 0 "" 0 0) 4096 (Sample.filled Byte.xff)).
  - exact PacketProperties.abc_header_wf.
  - exact PacketProperties.abc_header_valid.
  - exact PacketProperties.buffer_4096_nonnull.
  - exact PacketProperties.abc_header_fits.
  - vm_compute. discriminate.
  - intros x Hx. apply sample_publisher_Pack_frame. exact Hx.
  - vm_compute. discriminate.
  - vm_compute. reflexivity.
Defined.

End CodecProperties.

(** ** More on the recorder *)

Module RuntimeProperties.
Import Machine Recorder Runtime RecorderProperties.

Section WithLog.
Context {ext : Collaborators} {store : LogStore}.

(** *** What each operation leaves alone *)

Lemma AddTopic_loop_frame (r : regex) (ts : list string) :
  forall (num : Z) (s : State),
    logFile (snd (AddTopic_loop r ts num s)) = logFile s /\
    storage (snd (AddTopic_loop r ts num s)) = storage s /\
    patterns (snd (AddTopic_loop r ts num s)) = patterns s.
Proof.
  induction ts as [|t ts IH]; intros num s; cbn [AddTopic_loop].
  - now repeat split.
  - destruct (regex_match t r).
    + destruct (AddTopic_spec t s) as (_ & _ & _ & _ & Hp & Hl & Hst).
      destruct (AddTopic t s) as [err s1]. cbn [fst snd] in *.
      destruct err; cbn [snd];
        destruct (IH (num + 1) s1) as (H1 & H2 & H3); repeat split; congruence.
    + destruct (IH num (say DBG ("Not recording " ++ t ++ nl) s)) as (H1 & H2 & H3).
      repeat split; assumption.
Qed.

Lemma AddTopic_regex_frame (r : regex) (s : State) :
  logFile (snd (AddTopic_regex r s)) = logFile s /\
  storage (snd (AddTopic_regex r s)) = storage s /\
  exists added, patterns (snd (AddTopic_regex r s)) = (patterns s ++ added)%list.
Proof.
  unfold AddTopic_regex.
  destruct (AddTopic_loop_frame r (Node_TopicList (node s)) 0 s) as (H1 & H2 & H3).
  destruct (AddTopic_loop r (Node_TopicList (node s)) 0 s) as [[v|n] s1];
    cbn [fst snd logFile storage patterns] in *.
  - repeat split; try assumption. exists []. now rewrite List.app_nil_r.
  - repeat split; try assumption. exists [r]. now rewrite H3.
Qed.

(** The loop of the advertisement handler: one [SubscribeRaw] call for
    the topic per matching pattern; the topic joins the subscribed set
    when one of them succeeds. *)
Lemma OnAdvertisement_loop_spec (t : string) (ps : list regex) :
  forall s : State,
    exists oks : list bool,
      List.length oks = List.length (matching_patterns t ps) /\
      calls (OnAdvertisement_loop t ps s)
      = (calls s ++ List.map (SubscribeRaw t) oks)%list /\
      alreadySubscribed (OnAdvertisement_loop t ps s)
      = (if existsb (fun b => b) oks then {[ t ]} ∪ alreadySubscribed s
         else alreadySubscribed s) /\
      patterns (OnAdvertisement_loop t ps s) = patterns s /\
      logFile (OnAdvertisement_loop t ps s) = logFile s /\
      storage (OnAdvertisement_loop t ps s) = storage s /\
      (oks = [] -> OnAdvertisement_loop t ps s = s).
Proof.
  induction ps as [|p ps IH]; intros s;
    cbn [OnAdvertisement_loop matching_patterns List.filter].
  - exists []. cbn. rewrite List.app_nil_r. now repeat split.
  - destruct (regex_match t p).
    + destruct (AddTopic_spec t s) as (_ & Hc & Ha & _ & Hp & Hl & Hst).
      destruct (IH (snd (AddTopic t s))) as (oks & Hn & Hc' & Ha' & Hp' & Hl' & Hst' & _).
      exists (fst (Node_SubscribeRaw t (node s)) :: oks).
      fold (matching_patterns t ps).
      repeat apply conj.
      * cbn. now rewrite Hn.
      * rewrite Hc', Hc. cbn. now rewrite <- List.app_assoc.
      * rewrite Ha', Ha. cbn [existsb].
        destruct (fst (Node_SubscribeRaw t (node s))); cbn [orb]; [|reflexivity].
        destruct (existsb (fun b => b) oks); [|reflexivity].
        now rewrite (assoc_L (∪)), union_idemp_L.
      * congruence.
      * congruence.
      * congruence.
      * discriminate.
    + apply IH.
Qed.

(** *** The subscribed set and the successful calls *)

Lemma AddTopic_exact (t : string) (s : State) :
  subscribed_exactly s -> subscribed_exactly (snd (AddTopic t s)).
Proof.
  intros Hs u. destruct (AddTopic_spec t s) as (_ & Hc & Ha & _).
  rewrite Hc, Ha, in_app_iff. cbn [In].
  destruct (fst (Node_SubscribeRaw t (node s))).
  - rewrite elem_of_union, elem_of_singleton, (Hs u). split.
    + intros [->|H]; [right; now left|now left].
    + intros [H|[H|[]]]; [now right|left; congruence].
  - rewrite (Hs u). split; [now left|].
    intros [H|[H|[]]]; [assumption|discriminate].
Qed.

Lemma say_exact (sev : Severity) (msg : string) (s : State) :
  subscribed_exactly s -> subscribed_exactly (say sev msg s).
Proof. intros Hs u. exact (Hs u). Qed.

Lemma AddTopic_loop_exact (r : regex) (ts : list string) :
  forall (num : Z) (s : State),
    subscribed_exactly s -> subscribed_exactly (snd (AddTopic_loop r ts num s)).
Proof.
  induction ts as [|t ts IH]; intros num s Hs; cbn [AddTopic_loop].
  - exact Hs.
  - destruct (regex_match t r).
    + pose proof (AddTopic_exact t s Hs) as H1.
      destruct (AddTopic t s) as [err s1]. cbn [snd] in H1.
      destruct err; cbn [snd]; try (apply IH; exact H1). exact H1.
    + apply IH. now apply say_exact.
Qed.

Lemma AddTopic_regex_exact (r : regex) (s : State) :
  subscribed_exactly s -> subscribed_exactly (snd (AddTopic_regex r s)).
Proof.
  intros Hs. unfold AddTopic_regex.
  pose proof (AddTopic_loop_exact r (Node_TopicList (node s)) 0 s Hs) as H1.
  destruct (AddTopic_loop r (Node_TopicList (node s)) 0 s) as [[v|n] s1];
    cbn [snd] in *; [exact H1|]. intros u. exact (H1 u).
Qed.

Lemma OnAdvertisement_loop_exact (t : string) (ps : list regex) :
  forall s : State,
    subscribed_exactly s -> subscribed_exactly (OnAdvertisement_loop t ps s).
Proof.
  induction ps as [|p ps IH]; intros s Hs; cbn [OnAdvertisement_loop].
  - exact Hs.
  - destruct (regex_match t p); apply IH; [now apply AddTopic_exact|exact Hs].
Qed.

Lemma OnAdvertisement_exact (pub : Publisher) (s s' : State) :
  subscribed_exactly s -> OnAdvertisement pub s = Some s' -> subscribed_exactly s'.
Proof.
  intros Hs. unfold OnAdvertisement.
  destruct (match DecomposeFullyQualifiedTopic (Publisher_Topic pub) with
            | Some pt => pt
            | None => (EmptyString, EmptyString)
            end) as [part t].
  destruct (partition_matches (Node_Partition (node s)) part) as [[|]|];
    [|intros [= <-]; exact Hs|discriminate].
  destruct (decide (t ∈ alreadySubscribed s)); intros [= <-];
    [exact Hs|now apply OnAdvertisement_loop_exact].
Qed.

Lemma Start_exact (f : string) (s : State) :
  subscribed_exactly s -> subscribed_exactly (snd (Start f s)).
Proof.
  intros Hs. unfold Start. destruct (logFile s).
  - exact Hs.
  - destruct (Log_Open Log_new f (storage s)) as [[[|] l] st]; cbn;
      intros u; cbn; rewrite in_app_iff; cbn [In]; rewrite (Hs u);
      (split; [now left|intros [H|[H|[]]]; [assumption|discriminate]]).
Qed.

Lemma OnMessageReceived_state (d : addr) (n : Z) (t ty : string) (now : Z)
    (p : Private) :
  alreadySubscribed (state (OnMessageReceived d n t ty now p))
  = alreadySubscribed (state p) /\
  calls (state (OnMessageReceived d n t ty now p)) = calls (state p) /\
  patterns (state (OnMessageReceived d n t ty now p)) = patterns (state p) /\
  wallMinusMono (OnMessageReceived d n t ty now p) = wallMinusMono p /\
  (logFile (state p) = None ->
   logFile (state (OnMessageReceived d n t ty now p)) = None /\
   storage (state (OnMessageReceived d n t ty now p)) = storage (state p) /\
   insertions (OnMessageReceived d n t ty now p) = insertions p).
Proof.
  unfold OnMessageReceived. cbn [say logFile storage].
  destruct (logFile (state p)) as [l|] eqn:E.
  - destruct (Log_InsertMessage l (to_int64 (wallMinusMono p + now)) t ty d n
                (storage (state p)))
      as [[[|] l'] st]; cbn; repeat apply conj; try reflexivity; discriminate.
  - cbn. repeat apply conj; try reflexivity. intros _.
    repeat apply conj; try reflexivity. exact E.
Qed.

End WithLog.

Section Runs.
Context {ext : Collaborators} {store : LogStore}.

Lemma step_exact (o : Op) (p p' : Private) :
  subscribed_exactly (state p) -> step o p = Some p' ->
  subscribed_exactly (state p').
Proof.
  intros Hs. destruct o as [f| |t|r|pub|d n t ty now]; cbn [step].
  - intros [= <-]. now apply Start_exact.
  - intros [= <-]. exact Hs.
  - intros [= <-]. now apply AddTopic_exact.
  - intros [= <-]. now apply AddTopic_regex_exact.
  - destruct (OnAdvertisement pub (state p)) as [s1|] eqn:E; [|discriminate].
    intros [= <-]. exact (OnAdvertisement_exact pub (state p) s1 Hs E).
  - intros [= <-]. intros u.
    destruct (OnMessageReceived_state d n t ty now p) as (Ha & Hc & _).
    rewrite Ha, Hc. exact (Hs u).
Qed.

Lemma run_exact (ops : list Op) :
  forall p p' : Private,
    subscribed_exactly (state p) -> run ops p = Some p' ->
    subscribed_exactly (state p').
Proof.
  induction ops as [|o ops IH]; intros p p' Hs; cbn [run].
  - intros [= <-]. exact Hs.
  - destruct (step o p) as [p1|] eqn:E; [|discriminate].
    apply IH. exact (step_exact o p p1 Hs E).
Qed.

(** X9: Whatever entry points are taken after construction, in whatever
    order, the subscribed set holds exactly the topics for which a
    [SubscribeRaw] call has succeeded. *)
Theorem run_subscribed_exactly (ops : list Op) (wallStart monoStartNS : Z)
    (n : Node) (st : Storage) (p : Private) :
  run ops (construct wallStart monoStartNS n st) = Some p ->
  forall t : string,
    t ∈ alreadySubscribed (state p) <-> In (SubscribeRaw t true) (calls (state p)).
Proof.
  intros Hrun.
  apply (run_exact ops (construct wallStart monoStartNS n st) p); [|exact Hrun].
  intros t. cbn. rewrite elem_of_empty. tauto.
Qed.

(** *** Nothing is ever taken back *)

Lemma keeps_refl (s : State) : keeps s s.
Proof. split; [reflexivity|]. exists []. now rewrite List.app_nil_r. Qed.

Lemma keeps_trans (s1 s2 s3 : State) : keeps s1 s2 -> keeps s2 s3 -> keeps s1 s3.
Proof.
  intros [H1 [a1 P1]] [H2 [a2 P2]]. split; [now transitivity (alreadySubscribed s2)|].
  exists (a1 ++ a2)%list. now rewrite P2, P1, List.app_assoc.
Qed.

Lemma keeps_same (s s' : State) :
  alreadySubscribed s' = alreadySubscribed s -> patterns s' = patterns s ->
  keeps s s'.
Proof.
  intros Ha Hp. split; [now rewrite Ha|]. exists []. now rewrite List.app_nil_r.
Qed.

Lemma AddTopic_keeps (t : string) (s : State) : keeps s (snd (AddTopic t s)).
Proof.
  destruct (AddTopic_spec t s) as (_ & _ & Ha & _ & Hp & _). split.
  - rewrite Ha. destruct (fst (Node_SubscribeRaw t (node s)));
      [apply union_subseteq_r|reflexivity].
  - exists []. now rewrite List.app_nil_r.
Qed.

Lemma AddTopic_regex_keeps (r : regex) (s : State) :
  keeps s (snd (AddTopic_regex r s)).
Proof.
  split; [|apply AddTopic_regex_frame]. unfold AddTopic_regex.
  destruct (AddTopic_loop_spec r (Node_TopicList (node s)) 0 s) as (_ & _ & H).
  destruct (AddTopic_loop r (Node_TopicList (node s)) 0 s) as [[v|n] s1];
    cbn [fst snd alreadySubscribed] in *;
    destruct H as [(k & t & _ & _ & _ & Ha)|(_ & _ & Ha)]; rewrite Ha;
    apply union_subseteq_l.
Qed.

Lemma OnAdvertisement_keeps (pub : Publisher) (s s' : State) :
  OnAdvertisement pub s = Some s' -> keeps s s'.
Proof.
  unfold OnAdvertisement.
  destruct (match DecomposeFullyQualifiedTopic (Publisher_Topic pub) with
            | Some pt => pt
            | None => (EmptyString, EmptyString)
            end) as [part t].
  destruct (partition_matches (Node_Partition (node s)) part) as [[|]|];
    [|intros [= <-]; apply keeps_refl|discriminate].
  destruct (decide (t ∈ alreadySubscribed s)); intros [= <-]; [apply keeps_refl|].
  destruct (OnAdvertisement_loop_spec t (patterns s) s)
    as (oks & _ & _ & Ha & Hp & _). split.
  - rewrite Ha. destruct (existsb (fun b => b) oks);
      [apply union_subseteq_r|reflexivity].
  - exists []. now rewrite List.app_nil_r.
Qed.

Lemma Start_keeps (f : string) (s : State) : keeps s (snd (Start f s)).
Proof.
  apply keeps_same; unfold Start; destruct (logFile s); try reflexivity;
    destruct (Log_Open Log_new f (storage s)) as [[[|] l] st]; reflexivity.
Qed.

Lemma step_keeps (o : Op) (p p' : Private) :
  step o p = Some p' ->
  keeps (state p) (state p') /\ wallMinusMono p' = wallMinusMono p.
Proof.
  destruct o as [f| |t|r|pub|d n t ty now]; cbn [step].
  - intros [= <-]. split; [apply Start_keeps|reflexivity].
  - intros [= <-]. split; [now apply keeps_same|reflexivity].
  - intros [= <-]. split; [apply AddTopic_keeps|reflexivity].
  - intros [= <-]. split; [apply AddTopic_regex_keeps|reflexivity].
  - destruct (OnAdvertisement pub (state p)) as [s1|] eqn:E; [|discriminate].
    intros [= <-]. split; [exact (OnAdvertisement_keeps pub _ _ E)|reflexivity].
  - intros [= <-].
    destruct (OnMessageReceived_state d n t ty now p) as (Ha & _ & Hp & Hw & _).
    split; [now apply keeps_same|exact Hw].
Qed.

Lemma run_keeps_all (ops : list Op) :
  forall p p' : Private,
    run ops p = Some p' ->
    keeps (state p) (state p') /\ wallMinusMono p' = wallMinusMono p.
Proof.
  induction ops as [|o ops IH]; intros p p'; cbn [run].
  - intros [= <-]. split; [apply keeps_refl|reflexivity].
  - destruct (step o p) as [p1|] eqn:E; [|discriminate]. intros Hrun.
    destruct (step_keeps o p p1 E) as [K1 W1].
    destruct (IH p1 p' Hrun) as [K2 W2].
    split; [exact (keeps_trans _ _ _ K1 K2)|congruence].
Qed.

(** X10: No entry point takes anything back: over any sequence of them,
    [Stop] included, every subscribed topic stays subscribed, the
    stored patterns stay where they are in the list (new ones are
    appended), and the clock offset set by the constructor never
    changes. *)
Theorem run_never_forgets (ops : list Op) (p p' : Private) :
  run ops p = Some p' ->
  alreadySubscribed (state p) ⊆ alreadySubscribed (state p') /\
  (exists added : list regex,
      patterns (state p') = (patterns (state p) ++ added)%list) /\
  wallMinusMono p' = wallMinusMono p.
Proof.
  intros Hrun. destruct (run_keeps_all ops p p' Hrun) as [[Ha Hp] Hw].
  now repeat split.
Qed.

(** *** Messages and the log *)

Lemma step_idle (o : Op) (p p' : Private) :
  is_start o = false -> logFile (state p) = None -> step o p = Some p' ->
  logFile (state p') = None /\ storage (state p') = storage (state p) /\
  insertions p' = insertions p.
Proof.
  intros Ho Hl. destruct o as [f| |t|r|pub|d n t ty now]; cbn [step];
    try discriminate Ho.
  - intros [= <-]. cbn. now repeat split.
  - intros [= <-]. destruct (AddTopic_spec t (state p)) as (_ & _ & _ & _ & _ & H1 & H2).
    cbn. repeat split; congruence.
  - intros [= <-]. destruct (AddTopic_regex_frame r (state p)) as (H1 & H2 & _).
    cbn. repeat split; congruence.
  - destruct (OnAdvertisement pub (state p)) as [s1|] eqn:E; [|discriminate].
    intros [= <-]. cbn. revert E. unfold OnAdvertisement.
    destruct (match DecomposeFullyQualifiedTopic (Publisher_Topic pub) with
              | Some pt => pt
              | None => (EmptyString, EmptyString)
              end) as [part t].
    destruct (partition_matches (Node_Partition (node (state p))) part) as [[|]|];
      [|intros [= <-]; now repeat split|discriminate].
    destruct (decide (t ∈ alreadySubscribed (state p))); intros [= <-];
      [now repeat split|].
    destruct (OnAdvertisement_loop_spec t (patterns (state p)) (state p))
      as (oks & _ & _ & _ & _ & H1 & H2 & _).
    repeat split; congruence.
  - intros [= <-]. destruct (OnMessageReceived_state d n t ty now p) as (_ & _ & _ & _ & H).
    exact (H Hl).
Qed.

(** X11: Nothing is written while no recording is under way: from a state
    with no log (a fresh recorder, or one just stopped), any sequence
    of entry points other than [Start] -- messages, advertisements,
    added topics and patterns, [Stop] -- makes no [InsertMessage] call,
    leaves the storage untouched and the log unset. *)
Theorem run_idle (ops : list Op) :
  forall p p' : Private,
    forallb (fun o => negb (is_start o)) ops = true ->
    logFile (state p) = None ->
    run ops p = Some p' ->
    logFile (state p') = None /\ storage (state p') = storage (state p) /\
    insertions p' = insertions p.
Proof.
  induction ops as [|o ops IH]; intros p p' Hops Hl; cbn [run].
  - intros [= <-]. now repeat split.
  - cbn [forallb] in Hops. apply andb_prop in Hops. destruct Hops as [Ho Hops].
    apply negb_true_iff in Ho.
    destruct (step o p) as [p1|] eqn:E; [|discriminate]. intros Hrun.
    destruct (step_idle o p p1 Ho Hl E) as (L1 & S1 & I1).
    destruct (IH p1 p' Hops L1 Hrun) as (L2 & S2 & I2).
    repeat split; congruence.
Qed.

Lemma to_int64_small (z : Z) : int64_range z -> to_int64 z = z.
Proof.
  unfold int64_range, to_int64. intros H. rewrite Z.mod_small by lia. lia.
Qed.

(** X12: Provided none of the three 64-bit nanosecond operations
    overflows (the conversion of [time(NULL)] to nanoseconds at
    construction, the offset from the steady clock at construction,
    and the stamp at reception), a message received while a log is
    open is offered to the log once, whatever happened since
    construction, with its topic, type, data pointer and length,
    stamped with the wall-clock time of construction plus the time
    elapsed on the steady clock since then; whether or not the
    insertion succeeds the log stays open. *)
Theorem message_time_stamp (ops : list Op) (wallStart monoStartNS : Z)
    (n : Node) (st : Storage) (p : Private) (l : Log)
    (d : addr) (len : Z) (t ty : string) (nowNS : Z) :
  run ops (construct wallStart monoStartNS n st) = Some p ->
  logFile (state p) = Some l ->
  int64_range (wallStart * 1000000000) ->
  int64_range (wallStart * 1000000000 - monoStartNS) ->
  int64_range (wallStart * 1000000000 - monoStartNS + nowNS) ->
  let utc := wallStart * 1000000000 + (nowNS - monoStartNS) in
  let r := Log_InsertMessage l utc t ty d len (storage (state p)) in
  let p' := OnMessageReceived d len t ty nowNS p in
  insertions p' = (insertions p ++ [mkInsertion utc t ty d len (fst (fst r))])%list /\
  logFile (state p') = Some (snd (fst r)) /\
  storage (state p') = snd r.
Proof.
  intros Hrun Hl H1 H2 H3 utc r p'.
  destruct (run_keeps_all ops (construct wallStart monoStartNS n st) p Hrun)
    as [_ Hw]. cbn [construct wallMinusMono] in Hw.
  rewrite (to_int64_small _ H1), (to_int64_small _ H2) in Hw.
  assert (Hutc : to_int64 (wallMinusMono p + nowNS) = utc).
  { rewrite Hw, (to_int64_small _ H3). subst utc. lia. }
  subst p'. unfold OnMessageReceived. cbn [say logFile storage]. rewrite Hl, Hutc.
  fold r. destruct r as [[[|] l'] st']; cbn; repeat apply conj; reflexivity.
Qed.

End Runs.

Section Handler.
Context {ext : Collaborators}.

Lemma partition_matches_defined (nodePartition partition : string) :
  front_or_nul partition = "/"%char ->
  exists b : bool, partition_matches nodePartition partition = Some b.
Proof.
  intros Hslash. unfold partition_matches, c_str_from, startCmp.
  destruct partition as [|c rest]; [discriminate|].
  assert (Hle : ((if Ascii.eqb (front_or_nul nodePartition) "/" then 0 else 1)
                 <=? String.length (String c rest))%nat = true).
  { apply Nat.leb_le. cbn [String.length].
    destruct (Ascii.eqb (front_or_nul nodePartition) "/"); lia. }
  rewrite Hle. eexists. reflexivity.
Qed.

Lemma OnAdvertisement_subscribed (pub : Publisher) (s : State) :
  front_or_nul (fst (decomposed pub)) = "/"%char ->
  snd (decomposed pub) ∈ alreadySubscribed s ->
  OnAdvertisement pub s = Some s.
Proof.
  unfold decomposed, OnAdvertisement.
  destruct (match DecomposeFullyQualifiedTopic (Publisher_Topic pub) with
            | Some pt => pt
            | None => (EmptyString, EmptyString)
            end) as [part t]. cbn [fst snd]. intros Hslash Hin.
  destruct (partition_matches_defined (Node_Partition (node s)) part Hslash)
    as [[|] Hb]; rewrite Hb; [|reflexivity].
  now destruct (decide (t ∈ alreadySubscribed s)).
Qed.

Lemma OnAdvertisement_spec (pub : Publisher) (s s' : State) :
  OnAdvertisement pub s = Some s' ->
  let t := snd (decomposed pub) in
  exists oks : list bool,
    calls s' = (calls s ++ List.map (SubscribeRaw t) oks)%list /\
    (oks = []
     \/ ((t ∉ alreadySubscribed s) /\
         List.length oks = List.length (matching_patterns t (patterns s)))) /\
    (oks = [] -> s' = s) /\
    alreadySubscribed s'
    = (if existsb (fun b => b) oks then {[ t ]} ∪ alreadySubscribed s
       else alreadySubscribed s) /\
    patterns s' = patterns s /\ logFile s' = logFile s /\ storage s' = storage s.
Proof.
  unfold decomposed, OnAdvertisement.
  destruct (match DecomposeFullyQualifiedTopic (Publisher_Topic pub) with
            | Some pt => pt
            | None => (EmptyString, EmptyString)
            end) as [part t]. cbn [fst snd].
  assert (Hnone : exists oks : list bool,
             calls s = (calls s ++ List.map (SubscribeRaw t) oks)%list /\
             (oks = []
              \/ ((t ∉ alreadySubscribed s) /\
                  List.length oks = List.length (matching_patterns t (patterns s)))) /\
             (oks = [] -> s = s) /\
             alreadySubscribed s
             = (if existsb (fun b => b) oks then {[ t ]} ∪ alreadySubscribed s
                else alreadySubscribed s) /\
             patterns s = patterns s /\ logFile s = logFile s /\ storage s = storage s).
  { exists []. cbn. rewrite List.app_nil_r. repeat apply conj; try reflexivity.
    now left. }
  destruct (partition_matches (Node_Partition (node s)) part) as [[|]|];
    [|intros [= <-]; exact Hnone|discriminate].
  destruct (decide (t ∈ alreadySubscribed s)) as [Hin|Hout]; intros [= <-];
    [exact Hnone|].
  destruct (OnAdvertisement_loop_spec t (patterns s) s)
    as (oks & Hn & Hc & Ha & Hp & Hl & Hst & Hsame).
  exists oks. repeat apply conj; try assumption. right. now split.
Qed.

(** The loop of the handler, with the node's answers. *)
Lemma OnAdvertisement_loop_answers (t : string) (ps : list regex) :
  forall s : State,
    let answers :=
      repeated_SubscribeRaw t (List.length (matching_patterns t ps)) (node s) in
    calls (OnAdvertisement_loop t ps s)
    = (calls s ++ List.map (SubscribeRaw t) (fst answers))%list /\
    node (OnAdvertisement_loop t ps s) = snd answers /\
    alreadySubscribed (OnAdvertisement_loop t ps s)
    = (if existsb (fun b => b) (fst answers) then {[ t ]} ∪ alreadySubscribed s
       else alreadySubscribed s) /\
    patterns (OnAdvertisement_loop t ps s) = patterns s /\
    logFile (OnAdvertisement_loop t ps s) = logFile s /\
    storage (OnAdvertisement_loop t ps s) = storage s.
Proof.
  induction ps as [|p ps IH]; intros s;
    cbn [OnAdvertisement_loop matching_patterns List.filter].
  - cbn. rewrite List.app_nil_r. now repeat split.
  - destruct (regex_match t p); [|apply IH].
    fold (matching_patterns t ps). cbn [List.length repeated_SubscribeRaw].
    destruct (AddTopic_spec t s) as (_ & Hc & Ha & Hn & Hp & Hl & Hst).
    specialize (IH (snd (AddTopic t s))). cbv zeta in IH. rewrite Hn in IH.
    destruct (Node_SubscribeRaw t (node s)) as [ok n1]. cbn [fst snd] in *.
    destruct (repeated_SubscribeRaw t (List.length (matching_patterns t ps)) n1)
      as [oks n2]. cbn [fst snd] in *.
    destruct IH as (Hc' & Hn' & Ha' & Hp' & Hl' & Hst').
    repeat apply conj.
    + rewrite Hc', Hc. cbn. now rewrite <- List.app_assoc.
    + exact Hn'.
    + rewrite Ha', Ha. cbn [existsb]. destruct ok; cbn [orb]; [|reflexivity].
      destruct (existsb (fun b => b) oks); [|reflexivity].
      now rewrite (assoc_L (∪)), union_idemp_L.
    + congruence.
    + congruence.
    + congruence.
Qed.

(** X13: What one advertisement does.  When the node's partition and the
    advertised one compare different, or the advertised topic is
    already subscribed, the recorder is left exactly as it was.  When
    they compare equal and the topic is not subscribed, the handler
    calls [SubscribeRaw] for the advertised topic once per stored
    pattern that fully matches it, one call after the other on the
    node, and nothing else; the topic joins the subscribed set exactly
    when one of these calls succeeds.  The stored patterns, the log and
    the storage are never touched. *)
Theorem advertisement_footprint (pub : Publisher) (s s' : State) :
  OnAdvertisement pub s = Some s' ->
  let t := snd (decomposed pub) in
  let compared := partition_matches (Node_Partition (node s)) (fst (decomposed pub)) in
  let answers :=
    repeated_SubscribeRaw t (List.length (matching_patterns t (patterns s)))
      (node s) in
  (compared = Some false \/ t ∈ alreadySubscribed s -> s' = s) /\
  (compared = Some true -> t ∉ alreadySubscribed s ->
   calls s' = (calls s ++ List.map (SubscribeRaw t) (fst answers))%list /\
   node s' = snd answers /\
   alreadySubscribed s'
   = (if existsb (fun b => b) (fst answers) then {[ t ]} ∪ alreadySubscribed s
      else alreadySubscribed s)) /\
  patterns s' = patterns s /\ logFile s' = logFile s /\ storage s' = storage s.
Proof.
  unfold decomposed, OnAdvertisement.
  destruct (match DecomposeFullyQualifiedTopic (Publisher_Topic pub) with
            | Some pt => pt
            | None => (EmptyString, EmptyString)
            end) as [part t]. cbn [fst snd].
  destruct (partition_matches (Node_Partition (node s)) part) as [[|]|];
    [|intros [= <-]|discriminate].
  - destruct (decide (t ∈ alreadySubscribed s)) as [Hin|Hout]; intros [= <-].
    + repeat apply conj; try reflexivity. intros _ Hn. contradiction.
    + destruct (OnAdvertisement_loop_answers t (patterns s) s)
        as (Hc & Hn & Ha & Hp & Hl & Hst).
      repeat apply conj; try assumption.
      * intros [H|H]; [discriminate|contradiction].
      * intros _ _. repeat apply conj; assumption.
  - repeat apply conj; try reflexivity. intros H. discriminate.
Qed.

(** X14: An advertisement of a topic the recorder is subscribed to changes
    nothing and calls nothing; so once an advertisement has led to a
    successful [SubscribeRaw], the same advertisement arriving again
    is ignored.  (The advertised partition begins with ['/'].) *)
Theorem advertisement_ignored_once_subscribed (pub : Publisher) (s : State) :
  front_or_nul (fst (decomposed pub)) = "/"%char ->
  (snd (decomposed pub) ∈ alreadySubscribed s -> OnAdvertisement pub s = Some s) /\
  (forall (s' : State) (new : list Call),
      OnAdvertisement pub s = Some s' ->
      calls s' = (calls s ++ new)%list ->
      In (SubscribeRaw (snd (decomposed pub)) true) new ->
      OnAdvertisement pub s' = Some s').
Proof.
  intros Hslash. split; [now apply OnAdvertisement_subscribed|].
  intros s' new Hadv Hcalls Hin. apply OnAdvertisement_subscribed; [exact Hslash|].
  destruct (OnAdvertisement_spec pub s s' Hadv) as (oks & Hc & _ & _ & Ha & _).
  rewrite Hc in Hcalls. apply List.app_inv_head in Hcalls. subst new.
  apply in_map_iff in Hin. destruct Hin as (b & Hb & Hbin).
  injection Hb as ->.
  assert (He : existsb (fun b => b) oks = true)
    by (apply existsb_exists; now exists true).
  rewrite Ha, He. apply elem_of_union_l. now apply elem_of_singleton.
Qed.

(** X15: A pattern and the advertisements that follow it: when
    [AddTopic(pattern)] has stored the pattern (no subscription
    failed), every topic of the node's list that matches it is
    subscribed, and a later advertisement of such a topic is ignored,
    so no topic is subscribed twice this way. *)
Theorem pattern_then_advertisement (r : regex) (s : State) (pub : Publisher) :
  let s1 := snd (AddTopic_regex r s) in
  patterns s1 = (patterns s ++ [r])%list ->
  front_or_nul (fst (decomposed pub)) = "/"%char ->
  In (snd (decomposed pub)) (Node_TopicList (node s)) ->
  regex_match (snd (decomposed pub)) r = true ->
  snd (decomposed pub) ∈ alreadySubscribed s1 /\
  OnAdvertisement pub s1 = Some s1.
Proof.
  intros s1 Hstored Hslash Hlisted Hmatch.
  assert (Hin : snd (decomposed pub) ∈ alreadySubscribed s1).
  { subst s1. revert Hstored. unfold AddTopic_regex.
    destruct (AddTopic_loop_spec r (Node_TopicList (node s)) 0 s) as (Hp & _ & H).
    destruct (AddTopic_loop r (Node_TopicList (node s)) 0 s) as [[v|n] s1];
      cbn [fst snd alreadySubscribed patterns] in *.
    - intros Hstored. rewrite Hp in Hstored.
      apply (f_equal (@List.length regex)) in Hstored.
      rewrite List.length_app in Hstored. cbn in Hstored. lia.
    - intros _. destruct H as [(k & t & _ & Hret & _)|(_ & _ & Ha)];
        [discriminate|].
      rewrite Ha. apply elem_of_union_r, elem_of_list_to_set, list_elem_of_In.
      unfold matching. apply filter_In. now split. }
  split; [exact Hin|]. now apply OnAdvertisement_subscribed.
Qed.

(** X16: What [Start] returns and what it leaves behind: it never returns
    [FAILED_TO_SUBSCRIBE]; it returns [NO_ERROR] exactly when no log
    was set and [Open] succeeded; a log is set afterwards exactly when
    it did not return [FAILED_TO_OPEN]; the patterns, the subscriptions
    and the node are as before.  After [Stop], which unsets the log and
    nothing else, [Start] calls [Open] once and succeeds when [Open]
    does. *)
Theorem Start_outcome (f : string) (s : State) :
  let opened := fst (fst (Log_Open Log_new f (storage s))) in
  let r := Start f s in
  let r' := Start f (Stop s) in
  fst r <> FAILED_TO_SUBSCRIBE /\
  (fst r = NO_ERROR <-> logFile s = None /\ opened = true) /\
  (logFile (snd r) <> None <-> fst r <> FAILED_TO_OPEN) /\
  patterns (snd r) = patterns s /\
  alreadySubscribed (snd r) = alreadySubscribed s /\
  node (snd r) = node s /\
  fst r' = (if opened then NO_ERROR else FAILED_TO_OPEN) /\
  calls (snd r') = (calls s ++ [LogOpen f opened])%list /\
  patterns (snd r') = patterns s /\
  alreadySubscribed (snd r') = alreadySubscribed s.
Proof.
  intros opened r r'. subst opened r r'. unfold Stop, Start.
  cbn [set_logFile logFile storage patterns alreadySubscribed node calls console].
  destruct (logFile s) as [l|] eqn:E;
    destruct (Log_Open Log_new f (storage s)) as [[[|] l'] st]; cbn;
    repeat apply conj; try reflexivity; try discriminate;
    try (intros [? ?]; discriminate); try (intros H; now contradiction H);
    try (intros _; discriminate); try (intros _; split; reflexivity);
    intros _; rewrite E; discriminate.
Qed.

End Handler.

#[local] Existing Instance Sample.collaborators.
#[local] Existing Instance SampleRuntime.log_store.

Lemma run_subscribed_exactly_witness :
  "sensor/imu" ∈ alreadySubscribed (state (SampleRuntime.after SampleRuntime.session))
  <-> In (SubscribeRaw "sensor/imu" true)
         (calls (state (SampleRuntime.after SampleRuntime.session))).
Proof.
  apply (run_subscribed_exactly SampleRuntime.session 1500000000 7000000000
           Sample.robot_node Sample.disk0
           (SampleRuntime.after SampleRuntime.session)).
  vm_compute. reflexivity.
Defined.

Lemma run_never_forgets_witness :
  alreadySubscribed (state SampleRuntime.fresh)
  ⊆ alreadySubscribed (state (SampleRuntime.after SampleRuntime.session)) /\
  (exists added : list regex,
      patterns (state (SampleRuntime.after SampleRuntime.session))
      = (patterns (state SampleRuntime.fresh) ++ added)%list) /\
  wallMinusMono (SampleRuntime.after SampleRuntime.session)
  = wallMinusMono SampleRuntime.fresh.
Proof.
  apply (run_never_forgets SampleRuntime.session SampleRuntime.fresh
           (SampleRuntime.after SampleRuntime.session)).
  vm_compute. reflexivity.
Defined.

Lemma run_idle_witness :
  logFile (state (SampleRuntime.after SampleRuntime.idle_session)) = None /\
  storage (state (SampleRuntime.after SampleRuntime.idle_session))
  = storage (state SampleRuntime.fresh) /\
  insertions (SampleRuntime.after SampleRuntime.idle_session)
  = insertions SampleRuntime.fresh.
Proof.
  apply (run_idle SampleRuntime.idle_session SampleRuntime.fresh
           (SampleRuntime.after SampleRuntime.idle_session)).
  - reflexivity.
  - reflexivity.
  - vm_compute. reflexivity.
Defined.

Lemma message_time_stamp_witness :
  let p := SampleRuntime.after SampleRuntime.recording_session in
  let utc := 1500000000 * 1000000000 + (9000000000 - 7000000000) in
  let r := Log_InsertMessage (Some "a.log") utc "sensor/imu" "Imu" 4096 8
             (storage (state p)) in
  let p' := OnMessageReceived 4096 8 "sensor/imu" "Imu" 9000000000 p in
  insertions p'
  = (insertions p
     ++ [mkInsertion utc "sensor/imu" "Imu" 4096 8 (fst (fst r))])%list /\
  logFile (state p') = Some (snd (fst r)) /\
  storage (state p') = snd r.
Proof.
  apply (message_time_stamp SampleRuntime.recording_session 1500000000 7000000000
           Sample.robot_node Sample.disk0
           (SampleRuntime.after SampleRuntime.recording_session) (Some "a.log")
           4096 8 "sensor/imu" "Imu" 9000000000).
  - vm_compute. reflexivity.
  - vm_compute. reflexivity.
  - unfold int64_range. lia.
  - unfold int64_range. lia.
  - unfold int64_range. lia.
Defined.

Lemma advertisement_footprint_witness :
  let s := Sample.two_patterns in
  let s' := SampleRuntime.advertised in
  let t := snd (decomposed (ext := Sample.collaborators) "@/robot@cmd") in
  let compared :=
    partition_matches (Node_Partition (node s))
      (fst (decomposed (ext := Sample.collaborators) "@/robot@cmd")) in
  let answers :=
    repeated_SubscribeRaw t (List.length (matching_patterns t (patterns s)))
      (node s) in
  compared = Some true /\ (t ∉ alreadySubscribed s) /\
  fst answers = [true; true] /\
  calls s' = (calls s ++ List.map (SubscribeRaw t) (fst answers))%list /\
  node s' = snd answers /\
  alreadySubscribed s'
  = (if existsb (fun b => b) (fst answers) then {[ t ]} ∪ alreadySubscribed s
     else alreadySubscribed s) /\
  patterns s' = patterns s /\ logFile s' = logFile s /\ storage s' = storage s.
Proof.
  assert (Hc : partition_matches
                 (Node_Partition (node Sample.two_patterns))
                 (fst (decomposed (ext := Sample.collaborators) "@/robot@cmd"))
               = Some true) by reflexivity.
  assert (Hout : snd (decomposed (ext := Sample.collaborators) "@/robot@cmd")
                 ∉ alreadySubscribed Sample.two_patterns).
  { change (alreadySubscribed Sample.two_patterns) with (∅ : gset string).
    apply not_elem_of_empty. }
  destruct (advertisement_footprint (ext := Sample.collaborators) "@/robot@cmd"
              Sample.two_patterns SampleRuntime.advertised)
    as (_ & Hcalls & Hp & Hl & Hst).
  - vm_compute. reflexivity.
  - destruct (Hcalls Hc Hout) as (H1 & H2 & H3).
    exact (conj Hc (conj Hout (conj eq_refl (conj H1 (conj H2
             (conj H3 (conj Hp (conj Hl Hst)))))))).
Defined.

Lemma advertisement_ignored_once_subscribed_witness :
  let s := Sample.two_patterns in
  let t := snd (decomposed (ext := Sample.collaborators) "@/robot@cmd") in
  (t ∈ alreadySubscribed s
   -> OnAdvertisement (ext := Sample.collaborators) "@/robot@cmd" s = Some s) /\
  (forall (s' : State) (new : list Call),
      OnAdvertisement (ext := Sample.collaborators) "@/robot@cmd" s = Some s' ->
      calls s' = (calls s ++ new)%list ->
      In (SubscribeRaw t true) new ->
      OnAdvertisement (ext := Sample.collaborators) "@/robot@cmd" s' = Some s').
Proof.
  apply (advertisement_ignored_once_subscribed (ext := Sample.collaborators)
           "@/robot@cmd" Sample.two_patterns).
  reflexivity.
Defined.

Lemma pattern_then_advertisement_witness :
  let s1 := snd (AddTopic_regex (ext := Sample.collaborators)
                   (Sample.StartsWith "sensor/") SampleRuntime.imu_fresh) in
  snd (decomposed (ext := Sample.collaborators) "@/robot@sensor/imu")
  ∈ alreadySubscribed s1 /\
  OnAdvertisement (ext := Sample.collaborators) "@/robot@sensor/imu" s1 = Some s1.
Proof.
  apply (pattern_then_advertisement (ext := Sample.collaborators)
           (Sample.StartsWith "sensor/") SampleRuntime.imu_fresh
           "@/robot@sensor/imu").
  - vm_compute. reflexivity.
  - reflexivity.
  - cbn. now left.
  - reflexivity.
Defined.

Section Repeated.
Context {ext : Collaborators}.

(** X17: [AddTopic(name)] never looks at the subscribed set: two calls for
    the same topic make two [SubscribeRaw] calls, each result follows
    its own call's outcome, and the topic is in the subscribed set
    afterwards exactly when it was there before or one of the two calls
    succeeded. *)
Theorem AddTopic_twice (t : string) (s : State) :
  let ok1 := fst (Node_SubscribeRaw t (node s)) in
  let ok2 := fst (Node_SubscribeRaw t (snd (Node_SubscribeRaw t (node s)))) in
  let r1 := AddTopic t s in
  let r2 := AddTopic t (snd r1) in
  calls (snd r2) = (calls s ++ [SubscribeRaw t ok1; SubscribeRaw t ok2])%list /\
  fst r1 = (if ok1 then NO_ERROR else FAILED_TO_SUBSCRIBE) /\
  fst r2 = (if ok2 then NO_ERROR else FAILED_TO_SUBSCRIBE) /\
  (t ∈ alreadySubscribed (snd r2)
   <-> t ∈ alreadySubscribed s \/ ok1 = true \/ ok2 = true).
Proof.
  intros ok1 ok2 r1 r2.
  destruct (AddTopic_spec t s) as (Hr1 & Hc1 & Ha1 & Hn1 & _).
  destruct (AddTopic_spec t (snd r1)) as (Hr2 & Hc2 & Ha2 & _).
  fold r1 in Hr1, Hc1, Ha1, Hn1. fold r2 in Hr2, Hc2, Ha2.
  rewrite Hn1 in Hr2, Hc2, Ha2. fold ok1 in Hr1, Hc1, Ha1. fold ok2 in Hr2, Hc2, Ha2.
  repeat apply conj.
  - rewrite Hc2, Hc1. now rewrite <- List.app_assoc.
  - exact Hr1.
  - exact Hr2.
  - rewrite Ha2, Ha1. destruct ok1, ok2;
      rewrite ?elem_of_union, ?elem_of_singleton; intuition discriminate.
  - rewrite Ha2, Ha1. destruct ok1, ok2;
      rewrite ?elem_of_union, ?elem_of_singleton; intuition discriminate.
Qed.

End Repeated.

End RuntimeProperties.
